(** * UPS driver: status translator, capability reconciler and poll tick

    A shallow embedding of [lib/Utils.js] (blank, filled, parseUPSStatus)
    and of [drivers/ups/device.js] (setCapabilities, updateValue,
    getDeviceData), with the properties the specification states about
    them.

    Conventions of the embedding.
    - A JavaScript string is a [string]; every character stands for one
      UTF-16 code unit below 256.
    - A JavaScript Number is an IEEE 754 double: a [spec_float] of the
      Standard Library at precision 53, without the payload of NaN.
    - The raw telemetry object handed to the translator is a finite map
      from variable names to strings ([gmap string string]); reading an
      absent key yields [undefined].
    - An object literal built by the code is an association list in
      insertion order, which is the order [Object.entries] walks.
    - Calls to [this.log] only write to the application log; they are
      left out.
    - The host platform and the protocol client are not part of the
      sources. The device object records every call made on them, and
      carries the live capability list and the two store entries; what
      the host does with a value it is handed is not modelled.

    The file has the model first ([JS], [Utils], [UPSDevice]), then the
    definitions the statements are phrased with, then the properties. *)

From Stdlib Require Import String Ascii ZArith NArith List Bool Lia.
From Stdlib Require Import DecimalString DecimalN DecimalPos SpecFloat.
From stdpp Require Import base decidable option list gmap strings.

Set Warnings "-register-all".

Open Scope string_scope.

(** ** JavaScript built-ins used by the driver *)

Module JS.

(** Code units that [String.prototype.trim], [parseInt], [parseFloat]
    and the regular expression class [\s] treat as white space
    (TAB, LF, VT, FF, CR, SP, NBSP). *)
Definition is_white_space (c : ascii) : bool :=
  let n := nat_of_ascii c in
  (n =? 9)%nat || (n =? 10)%nat || (n =? 11)%nat || (n =? 12)%nat
  || (n =? 13)%nat || (n =? 32)%nat || (n =? 160)%nat.

Fixpoint trimStart (s : string) : string :=
  match s with
  | String c s' => if is_white_space c then trimStart s' else s
  | EmptyString => EmptyString
  end.

Fixpoint trimEnd (s : string) : string :=
  match s with
  | EmptyString => EmptyString
  | String c s' =>
      match trimEnd s' with
      | EmptyString => if is_white_space c then EmptyString else String c EmptyString
      | r => String c r
      end
  end.

(** [s.trim()] *)
Definition trim (s : string) : string := trimEnd (trimStart s).

(** [s.startsWith(search)] *)
Definition startsWith (s search : string) : bool := String.prefix search s.

(** [s.split(sep)] for a one-character separator: never the empty list. *)
Fixpoint split (sep : ascii) (s : string) : list string :=
  match s with
  | EmptyString => [EmptyString]
  | String c s' =>
      if Ascii.eqb c sep then EmptyString :: split sep s'
      else match split sep s' with
           | w :: ws => String c w :: ws
           | [] => [String c EmptyString]
           end
  end.

(** Numbers are doubles: zeros and infinities with their sign, NaN, and
    the finite values [(-1)^s * m * 2^e] in canonical form. *)
Definition number : Type := spec_float.

Abbreviation NaN := S754_nan.
Abbreviation Infinity := S754_infinity.

Definition prec : Z := 53.
Definition emax : Z := 1024.

(** The Number value of the decimal [(-1)^neg * m * 10^e]: the double
    nearest to it, ties to even, and an infinity beyond the largest
    double. An integer is rounded as it is; a fraction is the correctly
    rounded quotient of [m] by the power of ten. *)
Definition Decimal (negative : bool) (mantissa : N) (exp10 : Z) : number :=
  match mantissa with
  | N0 => S754_zero negative
  | Npos m =>
      match exp10 with
      | Z0 => binary_round prec emax negative m 0
      | Zpos k => binary_round prec emax negative (m * Pos.pow 10 k) 0
      | Zneg k =>
          SFdiv prec emax (S754_finite negative m 0)
                (S754_finite false (Pos.pow 10 k) 0)
      end
  end.

Definition is_digit (c : ascii) : bool :=
  let n := nat_of_ascii c in (48 <=? n)%nat && (n <=? 57)%nat.

Definition digit_value (c : ascii) : N := (N_of_ascii c - 48)%N.

(** The longest prefix of decimal digits, and what follows it. *)
Fixpoint span_digits (s : string) : string * string :=
  match s with
  | String c s' =>
      if is_digit c then let '(ds, rest) := span_digits s' in (String c ds, rest)
      else (EmptyString, s)
  | EmptyString => (EmptyString, EmptyString)
  end.

Fixpoint digits_value_from (acc : N) (ds : string) : N :=
  match ds with
  | String c ds' => digits_value_from (acc * 10 + digit_value c)%N ds'
  | EmptyString => acc
  end.

Definition digits_value (ds : string) : N := digits_value_from 0%N ds.

Definition strip_sign (s : string) : bool * string :=
  match s with
  | String "-" s' => (true, s')
  | String "+" s' => (false, s')
  | _ => (false, s)
  end.

(** [parseInt(s, 10)]: leading white space, an optional sign, then the
    longest run of decimal digits; [NaN] when that run is empty, and
    otherwise the Number value of the integer that the digits spell. *)
Definition parseInt (s : string) : number :=
  let '(neg, body) := strip_sign (trimStart s) in
  match span_digits body with
  | (EmptyString, _) => NaN
  | (ds, _) => Decimal neg (digits_value ds) 0
  end.

(** The exponent part [e|E [+|-] digits] at the head of [s], if complete. *)
Definition exponent_part (s : string) : Z :=
  match s with
  | String c s' =>
      if Ascii.eqb c "e" || Ascii.eqb c "E" then
        let '(neg, r) := strip_sign s' in
        match span_digits r with
        | (EmptyString, _) => 0%Z
        | (ds, _) => let e := Z.of_N (digits_value ds) in if neg then (- e)%Z else e
        end
      else 0%Z
  | EmptyString => 0%Z
  end.

(** [parseFloat(s)]: the longest prefix of the trimmed string that is a
    decimal literal ([Infinity], [digits], [digits.digits], [.digits],
    each with an optional sign and exponent); [NaN] when there is none,
    and otherwise the Number value of that literal. *)
Definition parseFloat (s : string) : number :=
  let '(neg, body) := strip_sign (trimStart s) in
  if String.prefix "Infinity" body then Infinity neg
  else
    let '(ip, r1) := span_digits body in
    match r1 with
    | String "." r =>
        let '(fp, r2) := span_digits r in
        match ip, fp with
        | EmptyString, EmptyString => NaN
        | _, _ =>
            Decimal neg (digits_value (ip ++ fp))
                    (exponent_part r2 - Z.of_nat (String.length fp))
        end
    | _ =>
        match ip with
        | EmptyString => NaN
        | _ => Decimal neg (digits_value ip) (exponent_part r1)
        end
    end.

(** Values. [VObj] is a plain object with its own properties in insertion
    order; [VBuiltin k] is the member [k] that every plain object inherits
    from [Object.prototype]. *)
Inductive jsval :=
| VUndefined
| VNull
| VBool (b : bool)
| VNum (n : number)
| VStr (s : string)
| VObj (props : list (string * jsval))
| VBuiltin (k : string).

(** The property names of [Object.prototype]. *)
Definition object_prototype_keys : list string :=
  [ "constructor"; "__defineGetter__"; "__defineSetter__"; "hasOwnProperty";
    "__lookupGetter__"; "__lookupSetter__"; "isPrototypeOf";
    "propertyIsEnumerable"; "toString"; "valueOf"; "__proto__";
    "toLocaleString" ].

Definition inherited (k : string) : bool :=
  existsb (String.eqb k) object_prototype_keys.

Fixpoint own {A : Type} (props : list (string * A)) (k : string) : option A :=
  match props with
  | (k', v) :: rest => if String.eqb k k' then Some v else own rest k
  | [] => None
  end.

(** [o[k]] on a plain object. *)
Definition get_prop (props : list (string * jsval)) (k : string) : jsval :=
  match own props k with
  | Some v => v
  | None => if inherited k then VBuiltin k else VUndefined
  end.

(** [o[k] = v] on a plain object: an existing key keeps its place, a new
    key goes last. *)
Fixpoint set_prop (props : list (string * jsval)) (k : string) (v : jsval)
  : list (string * jsval) :=
  match props with
  | (k', v') :: rest =>
      if String.eqb k k' then (k', v) :: rest else (k', v') :: set_prop rest k v
  | [] => [(k, v)]
  end.

(** What a template literal renders for a member inherited from
    [Object.prototype] (V8): the source text of a native function, or
    the default object tag for [__proto__]. *)
Definition builtin_text (k : string) : string :=
  if String.eqb k "__proto__" then "[object Object]"
  else "function " ++ (if String.eqb k "constructor" then "Object" else k)
       ++ "() { [native code] }".

(** [new Set(iterable)] followed by [Array.from]: the elements in the
    order of their first insertion. *)
Definition set_add (acc : list string) (x : string) : list string :=
  if existsb (String.eqb x) acc then acc else acc ++ [x].

Definition array_from_set (l : list string) : list string :=
  fold_left set_add l [].

(** [arr.includes(x)] *)
Definition includes (arr : list string) (x : string) : bool :=
  existsb (String.eqb x) arr.

End JS.

Import JS.

(** ** lib/Utils.js *)

Module Utils.

(** [blank(value)]. A string is blank when nothing is left after
    trimming; an object when it has no own enumerable key. An inherited
    built-in is a function (never blank), except [__proto__], which is
    the key-less object [Object.prototype]. *)
Definition blank (value : jsval) : bool :=
  match value with
  | VUndefined => true
  | VNull => true
  | VStr s => String.eqb (trim s) ""
  | VBool _ | VNum _ => false
  | VObj props => (length props =? 0)%nat
  | VBuiltin k => String.eqb k "__proto__"
  end.

(** [filled(value)] *)
Definition filled (value : jsval) : bool := negb (blank value).

(** The translator's result object. *)
Record Status := {
  values : list (string * jsval);
  capabilities : list string;
}.

(** Lines 55-71: the flag table. *)
Definition STATE_TYPES : list (string * string) :=
  [ ("OL", "Online");
    ("OB", "On Battery");
    ("LB", "Low Battery");
    ("HB", "High Battery");
    ("RB", "Battery Needs Replaced");
    ("CHRG", "Battery Charging");
    ("DISCHRG", "Battery Discharging");
    ("BYPASS", "Bypass Active");
    ("CAL", "Runtime Calibration");
    ("OFF", "Offline");
    ("OVER", "Overloaded");
    ("TRIM", "Trimming Voltage");
    ("BOOST", "Boosting Voltage");
    ("FSD", "Forced Shutdown");
    ("ALARM", "Alarm") ].

(** Line 75: the fields that never become capabilities. *)
Definition notCapabilities : list string := ["name"; "id"].

(** The text the template literal renders for [STATE_TYPES[word]]: the
    label of a listed flag, the text of a member inherited from
    [Object.prototype], and the word [undefined] for anything else. *)
Definition state_label (word : string) : string :=
  match own STATE_TYPES word with
  | Some label => label
  | None => if inherited word then builtin_text word else "undefined"
  end.

Fixpoint all_white_space (s : string) : bool :=
  match s with
  | String c s' => is_white_space c && all_white_space s'
  | EmptyString => true
  end.

(** [s.replace(/,\s*$/, "")]: the leftmost comma followed by nothing but
    white space is cut off together with that white space. *)
Fixpoint strip_trailing_comma (s : string) : string :=
  match s with
  | String c s' =>
      if Ascii.eqb c "," && all_white_space s' then EmptyString
      else String c (strip_trailing_comma s')
  | EmptyString => EmptyString
  end.

(** Lines 100-106: the readable status built from a filled raw status. *)
Definition readable_status (status : string) : string :=
  let readableStatus :=
    fold_left (fun acc word => acc ++ state_label word ++ ", ")
              (split " " status) "" in
  strip_trailing_comma readableStatus.

(** [filled(body[k]) ? parse(body[k]) : null], where [body[k]] is a
    string, or [undefined] (which is blank) when the key is absent. *)
Definition if_filled (parse : string -> jsval) (raw : option string) : jsval :=
  match raw with
  | Some s => if filled (VStr s) then parse s else VNull
  | None => VNull
  end.

(** Lines 112-124: the capability list read off the values object. An
    object value yields one dotted name per filled own entry; a function
    is an object without own entries. *)
Definition capabilities_of (vals : list (string * jsval)) : list string :=
  flat_map
    (fun '(key, value) =>
       if filled value && negb (includes notCapabilities key) then
         match value with
         | VObj props =>
             flat_map
               (fun '(subKey, subValue) =>
                  if filled subValue then [key ++ "." ++ subKey] else [])
               props
         | VBuiltin _ => []
         | _ => [key]
         end
       else [])
    vals.

(** Lines 54-127. [values0] is the object literal of lines 77-89,
    [values1] and [values2] add the optional fields (lines 92-97),
    [values3] sets [alarm_status] and the readable status (lines
    99-109). *)
Definition parseUPSStatus (body : gmap string string) : Status :=
  let int_of s := VNum (parseInt s) in
  let float_of s := VNum (parseFloat s) in
  let values0 : list (string * jsval) :=
    [ ("name", if_filled VStr (body !! "ups.model"));
      ("measure_battery", if_filled int_of (body !! "battery.charge"));
      ("measure_battery_runtime", if_filled int_of (body !! "battery.runtime"));
      ("measure_temperature", if_filled float_of (body !! "battery.temperature"));
      ("id", if_filled VStr (body !! "ups.serial"));
      ("measure_voltage",
        VObj [ ("input", if_filled int_of (body !! "input.voltage"));
               ("output", if_filled int_of (body !! "output.voltage")) ]);
      ("status", if_filled VStr (body !! "ups.status"));
      ("alarm_status", VBool false) ] in
  let values1 :=
    match body !! "ups.load" with
    | Some s =>
        if filled (VStr s) then set_prop values0 "measure_load" (int_of s)
        else values0
    | None => values0
    end in
  let values2 :=
    match body !! "battery.voltage" with
    | Some s =>
        if filled (VStr s)
        then set_prop values1 "measure_battery_voltage" (float_of s)
        else values1
    | None => values1
    end in
  let values3 :=
    match get_prop values2 "status" with
    | VStr status =>
        if filled (VStr status) then
          let with_alarm :=
            set_prop values2 "alarm_status"
                     (VBool (negb (startsWith status "OL"))) in
          set_prop with_alarm "status" (VStr (readable_status status))
        else values2
    | _ => values2
    end in
  {| values := values3; capabilities := capabilities_of values3 |}.

End Utils.

Import Utils.

(** ** drivers/ups/device.js *)

Module UPSDevice.

(** What a [throw] or a rejected promise carries: an error object with
    its name and message, or a bare string. *)
Inductive exn :=
| Error (name message : string)
| Rejection (s : string).

(** The [TypeError] of reading property [reading] of [null] or
    [undefined]; the text stands for the engine's message, which names
    the one or the other. *)
Definition type_error (reading : string) : exn :=
  Error "TypeError"
        ("Cannot read properties of null or undefined (reading '"
           ++ reading ++ "')").

(** The second argument of [setCapabilityValue]: a value of the status,
    or the property [k] of a value that is not a plain object (a string,
    number, boolean or built-in), which the model does not evaluate. *)
Inductive argument :=
| Value (v : jsval)
| Member (base : jsval) (k : string).

(** Calls made on the host platform and on the protocol client. *)
Inductive call :=
| AddCapability (capability : string)
| RemoveCapability (capability : string)
| SetStoreValue (key : string) (value : jsval)
| SetCapabilityValue (capability : string) (value : argument)
| SetAvailable
| SetUnavailable (reason : string)
| NutStart
| NutSetUsername
| NutSetPassword
| NutGetUPSVars
| NutClose.

(** Modelled from the spec: the host platform's device object, which is
    not part of the sources. It holds the capabilities the live device
    exposes, the two persisted store entries ([None] is unset), and the
    calls made so far, oldest first. *)
Record Device := {
  live : list string;
  first_run : option bool;
  stored_capabilities : option (list string);
  calls : list call;
}.

(** How a statement ends: normally with a value, or with a throw. *)
Inductive completion (A : Type) :=
| Normal (a : A)
| Throw (e : exn).
Arguments Normal {A} a.
Arguments Throw {A} e.

(** Computations over the device that may throw. *)
Definition M (A : Type) : Type := Device -> completion A * Device.

Definition ret {A} (a : A) : M A := fun d => (Normal a, d).

Definition throw {A} (e : exn) : M A := fun d => (Throw e, d).

Definition bind {A B} (m : M A) (k : A -> M B) : M B :=
  fun d =>
    match m d with
    | (Normal a, d') => k a d'
    | (Throw e, d') => (Throw e, d')
    end.

Notation "x <- m ;; k" := (bind m (fun x => k))
  (at level 100, m at next level, right associativity).
Notation "m ;; k" := (bind m (fun _ => k))
  (at level 100, right associativity).

(** [l.forEach(f)] *)
Fixpoint forEach {A} (l : list A) (f : A -> M unit) : M unit :=
  match l with
  | [] => ret tt
  | x :: rest => f x ;; forEach rest f
  end.

(** [try { body } catch (err) { handler } finally { finalizer }] *)
Definition try_catch_finally {A} (body : M A) (handler : exn -> M A)
    (finalizer : M unit) : M A :=
  fun d =>
    let '(r, d1) :=
      match body d with
      | (Normal a, d') => (Normal a, d')
      | (Throw e, d') => handler e d'
      end in
    match finalizer d1 with
    | (Normal _, d2) => (r, d2)
    | (Throw e, d2) => (Throw e, d2)
    end.

(** The device with one more call on record. *)
Definition record_call (c : call) (d : Device) : Device :=
  {| live := live d; first_run := first_run d;
     stored_capabilities := stored_capabilities d;
     calls := calls d ++ [c] |}.

(** Modelled from the spec: the host platform's capability and store
    operations (existence check, add, remove, list, value write, store
    read and write), each taking effect when it is called.
    [getCapabilities] returns the list as it is at the call. *)
Definition hasCapability (capability : string) : M bool :=
  fun d => (Normal (includes (live d) capability), d).

Definition getCapabilities : M (list string) :=
  fun d => (Normal (live d), d).

Definition addCapability (capability : string) : M unit :=
  fun d =>
    (Normal tt,
     record_call (AddCapability capability)
       {| live := live d ++ [capability]; first_run := first_run d;
          stored_capabilities := stored_capabilities d; calls := calls d |}).

Definition removeCapability (capability : string) : M unit :=
  fun d =>
    (Normal tt,
     record_call (RemoveCapability capability)
       {| live := filter (fun c => c <> capability) (live d);
          first_run := first_run d;
          stored_capabilities := stored_capabilities d; calls := calls d |}).

Definition getStoreValue_first_run : M (option bool) :=
  fun d => (Normal (first_run d), d).

Definition getStoreValue_capabilities : M (option (list string)) :=
  fun d => (Normal (stored_capabilities d), d).

Definition setStoreValue_first_run (b : bool) : M unit :=
  fun d =>
    (Normal tt,
     record_call (SetStoreValue "first_run" (VBool b))
       {| live := live d; first_run := Some b;
          stored_capabilities := stored_capabilities d; calls := calls d |}).

(** The write is asynchronous: a rejection reaches [this.error] and
    never the caller. *)
Definition setCapabilityValue (capability : string) (value : argument) : M unit :=
  fun d => (Normal tt, record_call (SetCapabilityValue capability value) d).

(** [v != null] *)
Definition not_nullish (v : jsval) : bool :=
  match v with
  | VUndefined | VNull => false
  | _ => true
  end.

(** [updateValue(capability, value)] *)
Definition updateValue (capability : string) (value : argument) : M unit :=
  setCapabilityValue capability value.

(** [o[name][sub]] for a plain object [o]. *)
Definition get_sub (props : list (string * jsval)) (name sub : string)
  : M argument :=
  match get_prop props name with
  | VUndefined | VNull => throw (type_error sub)
  | VObj inner => ret (Value (get_prop inner sub))
  | base => ret (Member base sub)
  end.

(** Lines 69-78: one optional capability is added when the status has a
    value for it and the live device does not expose it yet. *)
Definition add_dynamic (status : Status) (capability : string) : M unit :=
  if not_nullish (get_prop (values status) capability) then
    has <- hasCapability capability ;;
    if negb has then addCapability capability else ret tt
  else ret tt.

(** Lines 80-96: the first-run block. An unset flag fails the test
    [firstRun != null && firstRun]. Inside the loop [includes] is read
    off the stored list, which throws when that entry is unset. *)
Definition first_run_pruning (firstRun : option bool)
    (deviceCapabilities : option (list string)) : M unit :=
  match firstRun with
  | Some true =>
      allCapabilities <- getCapabilities ;;
      forEach allCapabilities (fun capability =>
        match deviceCapabilities with
        | None => throw (type_error "includes")
        | Some known =>
            if negb (includes known capability)
            then removeCapability capability
            else ret tt
        end) ;;
      setStoreValue_first_run false
  | _ => ret tt
  end.

(** Lines 98-105: the list whose values are written. The merge is kept
    in a local variable. *)
Definition capabilityList (deviceCapabilities : option (list string))
    (status : Status) : list string :=
  let merged :=
    match deviceCapabilities with
    | None => Some (capabilities status)
    | Some known => Some (array_from_set (known ++ capabilities status))
    end in
  match merged with
  | None => capabilities status
  | Some l => l
  end.

(** Lines 107-114: the callback of the value loop. *)
Definition propagate (status : Status) (capability : string) : M unit :=
  let parts := split "." capability in
  let isSubCapability := (1 <? length parts)%nat in
  if isSubCapability then
    let capabilityName := hd "" parts in
    let subCapabilityName := List.last parts "" in
    value <- get_sub (values status) capabilityName subCapabilityName ;;
    updateValue (capabilityName ++ "." ++ subCapabilityName) value
  else
    updateValue capability (Value (get_prop (values status) capability)).

(** Lines 68-116. *)
Definition setCapabilities (status : Status) : M unit :=
  add_dynamic status "measure_load" ;;
  add_dynamic status "measure_battery_voltage" ;;
  firstRun <- getStoreValue_first_run ;;
  deviceCapabilities <- getStoreValue_capabilities ;;
  first_run_pruning firstRun deviceCapabilities ;;
  forEach (capabilityList deviceCapabilities status) (propagate status).

(** Modelled from the spec: the protocol client of lib/node-nut, which is
    not part of the sources. Each operation either resolves or rejects;
    the record fixes what each one does when it is called in this tick.
    [close] does not throw. *)
Record Nut := {
  start : completion unit;
  SetUsername : completion unit;
  SetPassword : completion unit;
  GetUPSVars : completion (gmap string string);
}.

(** An awaited operation of the client: the call goes on record and
    completes as the client decides. *)
Definition nut_call {A} (c : call) (r : completion A) : M A :=
  fun d => (r, record_call c d).

Definition nut_close : M unit :=
  fun d => (Normal tt, record_call NutClose d).

Definition setAvailable : M unit :=
  fun d => (Normal tt, record_call SetAvailable d).

Definition setUnavailable (reason : string) : M unit :=
  fun d => (Normal tt, record_call (SetUnavailable reason) d).

(** The text of [err.message || err] inside a template literal: the
    message when there is a non-empty one; otherwise the error itself,
    which renders as its name for an error object with an empty message
    and as itself for a string. *)
Definition message_or_self (err : exn) : string :=
  match err with
  | Error name message => if String.eqb message "" then name else message
  | Rejection s => s
  end.

(** Lines 32-54: one tick of the poll loop. *)
Definition getDeviceData (nut : Nut) : M unit :=
  try_catch_finally
    (nut_call NutStart (start nut) ;;
     nut_call NutSetUsername (SetUsername nut) ;;
     nut_call NutSetPassword (SetPassword nut) ;;
     res <- nut_call NutGetUPSVars (GetUPSVars nut) ;;
     let status := parseUPSStatus res in
     setCapabilities status ;;
     setAvailable)
    (fun err => setUnavailable ("Connection error: " ++ message_or_self err))
    nut_close.

End UPSDevice.

Import UPSDevice.

(** ** drivers/ups/device.js: the timer of the poll loop *)

Module Polling.

Section Polling.

(** The values the [interval] setting can take, with the strict equality
    [===] on them. A timer keeps the value it was created from: its
    period is [Number(v) * 1000] milliseconds. *)
Context {setting : Type} (strict_equal : setting -> setting -> bool).

(** The device instance: the host's device object, whether
    [this.device] is set, the handle in [this.interval], and, of the
    runtime, the timers that are running and the next fresh handle. *)
Record Instance := {
  host : Device;
  device_set : bool;
  interval : option nat;
  timers : list (nat * setting);
  next_handle : nat;
}.

(** [setInterval(callback, Number(v) * 1000)]: a new timer under a fresh
    handle, which is returned. *)
Definition setInterval (v : setting) (i : Instance) : nat * Instance :=
  (next_handle i,
   {| host := host i; device_set := device_set i; interval := interval i;
      timers := timers i ++ [(next_handle i, v)];
      next_handle := S (next_handle i) |}).

(** [clearInterval(handle)]: the timer under the handle stops;
    [undefined] or a handle that is not running stops nothing. *)
Definition clearInterval (handle : option nat) (i : Instance) : Instance :=
  match handle with
  | Some h =>
      {| host := host i; device_set := device_set i; interval := interval i;
         timers := List.filter (fun t => negb (Nat.eqb (fst t) h)) (timers i);
         next_handle := next_handle i |}
  | None => i
  end.

(** Lines 166-172. *)
Definition setUpdateInterval (newInterval : setting) (i : Instance) : Instance :=
  let '(handle, i') := setInterval newInterval i in
  {| host := host i'; device_set := device_set i'; interval := Some handle;
     timers := timers i'; next_handle := next_handle i' |}.

(** Lines 16-30. [initNut] builds the client object and makes no call on
    it. *)
Definition onInit (intervalSetting : setting) (i : Instance) : Instance :=
  let i1 :=
    {| host := record_call (SetUnavailable "Initializing...") (host i);
       device_set := true; interval := interval i; timers := timers i;
       next_handle := next_handle i |} in
  let '(handle, i2) := setInterval intervalSetting i1 in
  {| host := host i2; device_set := device_set i2; interval := Some handle;
     timers := timers i2; next_handle := next_handle i2 |}.

(** Lines 142-155, for the old and the new value of the [interval]
    setting. The loop over the changed keys only logs. *)
Definition onSettings (oldInterval newInterval : setting) (i : Instance)
  : Instance :=
  let interval0 := interval i in
  if negb (strict_equal oldInterval newInterval) then
    setUpdateInterval newInterval (clearInterval interval0 i)
  else i.

(** Lines 177-181. The log line reads [device.name], which throws when
    [this.device] was never set. *)
Definition onDeleted (i : Instance) : completion unit * Instance :=
  if device_set i then (Normal tt, clearInterval (interval i) i)
  else (Throw (type_error "name"), i).

End Polling.

End Polling.

Import Polling.

(** * Vocabulary of the statements *)

(** The raw value under [k] when it is filled. *)
Definition raw_filled (body : gmap string string) (k : string) : option string :=
  match body !! k with
  | Some s => if filled (VStr s) then Some s else None
  | None => None
  end.

(** The fields every status carries, in declaration order. *)
Definition fixed_values (body : gmap string string) : list (string * jsval) :=
  let int_of s := VNum (parseInt s) in
  let float_of s := VNum (parseFloat s) in
  [ ("name", if_filled VStr (body !! "ups.model"));
    ("measure_battery", if_filled int_of (body !! "battery.charge"));
    ("measure_battery_runtime", if_filled int_of (body !! "battery.runtime"));
    ("measure_temperature", if_filled float_of (body !! "battery.temperature"));
    ("id", if_filled VStr (body !! "ups.serial"));
    ("measure_voltage",
      VObj [ ("input", if_filled int_of (body !! "input.voltage"));
             ("output", if_filled int_of (body !! "output.voltage")) ]);
    ("status",
      match raw_filled body "ups.status" with
      | Some s => VStr (readable_status s)
      | None => VNull
      end);
    ("alarm_status",
      VBool match raw_filled body "ups.status" with
            | Some s => negb (startsWith s "OL")
            | None => false
            end) ].

Definition optional_value (parse : string -> number) (name : string)
    (raw : option string) : list (string * jsval) :=
  match raw with
  | Some s => [(name, VNum (parse s))]
  | None => []
  end.


(** The integer that a Number holds, when it is finite and whole. *)
Definition integer_value (x : number) : option Z :=
  match x with
  | S754_zero _ => Some 0%Z
  | S754_finite s m e =>
      match e with
      | Zneg k =>
          if (Zpos m mod 2 ^ Zpos k =? 0)%Z
          then Some (cond_Zopp s (Zpos m / 2 ^ Zpos k))
          else None
      | _ => Some (cond_Zopp s (Zpos m * 2 ^ e))
      end
  | _ => None
  end.

Fixpoint no_comma (s : string) : bool :=
  match s with
  | String c s' => negb (Ascii.eqb c ",") && no_comma s'
  | EmptyString => true
  end.

(** The concatenation of a list of strings. *)
Definition flatten (l : list string) : string := fold_right String.append "" l.

(** The device with further calls recorded. *)
Definition add_calls (cs : list call) (d : Device) : Device :=
  {| live := live d; first_run := first_run d;
     stored_capabilities := stored_capabilities d;
     calls := (calls d ++ cs)%list |}.

(** The value the loop reads for [capability], when the read does not
    throw: the entry of the values object for a name without a dot, the
    sub-entry of the parent for a dotted name. A dotted name needs a
    parent that is neither [null] nor [undefined]. *)
Definition resolved (status : Status) (capability : string) : option argument :=
  let parts := split "." capability in
  if (1 <? length parts)%nat then
    match get_prop (values status) (hd "" parts) with
    | VUndefined | VNull => None
    | VObj inner => Some (Value (get_prop inner (List.last parts "")))
    | base => Some (Member base (List.last parts ""))
    end
  else Some (Value (get_prop (values status) capability)).

(** The name under which the value of [capability] is written. *)
Definition written_name (capability : string) : string :=
  let parts := split "." capability in
  if (1 <? length parts)%nat then hd "" parts ++ "." ++ List.last parts ""
  else capability.

(** The writes of the value loop up to the first read that throws. *)
Fixpoint writes (status : Status) (l : list string) : list call :=
  match l with
  | [] => []
  | c :: rest =>
      match resolved status c with
      | Some a => SetCapabilityValue (written_name c) a :: writes status rest
      | None => []
      end
  end.

(** How the value loop over [l] completes. *)
Fixpoint loop_completion (status : Status) (l : list string) : completion unit :=
  match l with
  | [] => Normal tt
  | c :: rest =>
      match resolved status c with
      | Some _ => loop_completion status rest
      | None => Throw (type_error (List.last (split "." c) ""))
      end
  end.

(** Whether every name of [l] can be read. *)
Definition all_resolved (status : Status) (l : list string) : bool :=
  forallb (fun c => match resolved status c with Some _ => true | None => false end) l.

(** The names of the capabilities whose value a list of calls writes. *)
Definition written (cs : list call) : list string :=
  flat_map (fun c => match c with SetCapabilityValue n _ => [n] | _ => [] end) cs.

(** The optional capability that one dynamic step adds, if any. *)
Definition to_add (status : Status) (capability : string) (exposed : list string)
  : list string :=
  if not_nullish (get_prop (values status) capability)
     && negb (includes exposed capability)
  then [capability] else [].

(** The capabilities added by the two dynamic steps. *)
Definition added (status : Status) (d : Device) : list string :=
  let first := to_add status "measure_load" (live d) in
  (first ++ to_add status "measure_battery_voltage" (live d ++ first))%list.

Definition with_added (cs : list string) (d : Device) : Device :=
  {| live := (live d ++ cs)%list; first_run := first_run d;
     stored_capabilities := stored_capabilities d;
     calls := (calls d ++ map AddCapability cs)%list |}.

(** The device after the two dynamic steps. *)
Definition after_adds (status : Status) (d : Device) : Device :=
  with_added (added status d) d.

(** The capabilities that the first-run loop removes, in order. *)
Definition unknown (known l : list string) : list string :=
  List.filter (fun c => negb (includes known c)) l.

Definition remove_all (rs : list string) (exposed : list string) : list string :=
  fold_left (fun acc c => filter (fun x => x <> c) acc) rs exposed.

Definition with_removed (rs : list string) (d : Device) : Device :=
  {| live := remove_all rs (live d); first_run := first_run d;
     stored_capabilities := stored_capabilities d;
     calls := (calls d ++ map RemoveCapability rs)%list |}.

Definition with_first_run (b : bool) (d : Device) : Device :=
  {| live := live d; first_run := Some b;
     stored_capabilities := stored_capabilities d;
     calls := (calls d ++ [SetStoreValue "first_run" (VBool b)])%list |}.

(** The value loop over [l], started on [d]. *)
Definition value_loop (status : Status) (l : list string) (d : Device)
  : completion unit * Device :=
  (loop_completion status l, add_calls (writes status l) d).

(** The reconciler in closed form: what [setCapabilities] returns and
    the device it leaves, by the state of the two store entries. *)
Definition reconciliation (status : Status) (d : Device)
  : completion unit * Device :=
  let d2 := after_adds status d in
  let l := capabilityList (stored_capabilities d) status in
  match first_run d with
  | Some true =>
      match stored_capabilities d with
      | Some known =>
          value_loop status l
            (with_first_run false (with_removed (unknown known (live d2)) d2))
      | None =>
          match live d2 with
          | [] => value_loop status l (with_first_run false d2)
          | _ :: _ => (Throw (type_error "includes"), d2)
          end
      end
  | _ => value_loop status l d2
  end.

(** The device after a sequence of further reconciliations. *)
Definition reconcile_all (later : list Status) (d : Device) : Device :=
  fold_left (fun dev st => snd (setCapabilities st dev)) later d.

Definition device_with_foo : Device :=
  {| live := ["measure_battery"; "measure_voltage.input"; "foo"];
     first_run := Some true;
     stored_capabilities := Some ["measure_battery"; "measure_voltage.input"];
     calls := [] |}.

Definition status_plain : Status :=
  parseUPSStatus
    (list_to_map [("battery.charge", "100"); ("input.voltage", "230")]).

Definition device_battery_stored : Device :=
  {| live := ["measure_battery"; "alarm_status"];
     first_run := Some false;
     stored_capabilities := Some ["measure_battery"];
     calls := [] |}.

Definition body_with_load : gmap string string :=
  list_to_map [("battery.charge", "80"); ("ups.load", "20")].

Definition status_with_load : Status := parseUPSStatus body_with_load.

Definition device_load_stored : Device :=
  {| live := ["measure_battery"; "alarm_status"; "measure_load"];
     first_run := Some false;
     stored_capabilities := Some ["measure_battery"; "measure_load"];
     calls := [] |}.

Definition status_without_load : Status :=
  parseUPSStatus (list_to_map [("battery.charge", "80")]).

Definition device_unreadable_after_load : Device :=
  {| live := ["measure_battery"; "alarm_status"; "measure_load"];
     first_run := Some false;
     stored_capabilities := Some ["measure_battery"; "measure_load"; "x.y"];
     calls := [] |}.

Definition is_value_write (c : call) : bool :=
  match c with
  | SetCapabilityValue _ _ => true
  | _ => false
  end.

Definition device_before_first_run : Device :=
  {| live := ["measure_battery"; "alarm_status"; "foo"];
     first_run := Some true;
     stored_capabilities := Some ["measure_battery"; "alarm_status"; "measure_load"];
     calls := [] |}.

Definition is_close (c : call) : bool :=
  match c with
  | NutClose => true
  | _ => false
  end.

(** How many times the connection was closed. *)
Definition closes (cs : list call) : nat := length (List.filter is_close cs).

(** The availability marks among a list of calls, in order. *)
Definition marks (cs : list call) : list call :=
  List.filter (fun c => match c with
                        | SetAvailable | SetUnavailable _ => true
                        | _ => false
                        end) cs.

(** The calls the reconciler can make. *)
Definition capability_call (c : call) : bool :=
  match c with
  | AddCapability _ | RemoveCapability _ | SetStoreValue _ _
  | SetCapabilityValue _ _ => true
  | _ => false
  end.

(** The first operation of the protocol client that rejects, if any. *)
Definition client_failure (nut : Nut) : option exn :=
  match start nut, SetUsername nut, SetPassword nut, GetUPSVars nut with
  | Throw e, _, _, _ => Some e
  | Normal _, Throw e, _, _ => Some e
  | Normal _, Normal _, Throw e, _ => Some e
  | Normal _, Normal _, Normal _, Throw e => Some e
  | Normal _, Normal _, Normal _, Normal _ => None
  end.

(** The capability names the translator can produce, in the order of
    the values object. *)
Definition translator_capabilities : list string :=
  [ "measure_battery"; "measure_battery_runtime"; "measure_temperature";
    "measure_voltage.input"; "measure_voltage.output"; "status";
    "alarm_status"; "measure_load"; "measure_battery_voltage" ].

(** The raw variable behind each capability that has one. *)
Definition capability_sources : list (string * string) :=
  [ ("measure_battery", "battery.charge");
    ("measure_battery_runtime", "battery.runtime");
    ("measure_temperature", "battery.temperature");
    ("measure_voltage.input", "input.voltage");
    ("measure_voltage.output", "output.voltage");
    ("status", "ups.status");
    ("measure_load", "ups.load");
    ("measure_battery_voltage", "battery.voltage") ].

(** The name, when there is a raw value behind it. *)
Definition listed (name : string) (raw : option string) : list string :=
  match raw with
  | Some _ => [name]
  | None => []
  end.

(** The decimal digits of a natural number. *)
Definition decimal (n : N) : string := NilEmpty.string_of_uint (N.to_uint n).

(** Whether a string begins with a decimal digit. *)
Definition starts_with_digit (s : string) : bool :=
  match s with
  | String c _ => is_digit c
  | EmptyString => false
  end.

(** The calls made between two states of the device. *)
Definition new_calls (before after : Device) : list call :=
  drop (length (calls before)) (calls after).

(** The calls on the protocol client that a tick makes before it
    reconciles or fails: each step runs only when the steps before it
    resolved. *)
Definition attempted (nut : Nut) : list call :=
  NutStart ::
  match start nut with
  | Throw _ => []
  | Normal _ =>
      NutSetUsername ::
      match SetUsername nut with
      | Throw _ => []
      | Normal _ =>
          NutSetPassword ::
          match SetPassword nut with
          | Throw _ => []
          | Normal _ => [NutGetUPSVars]
          end
      end
  end.

(** The mark a tick leaves for an error. *)
Definition unavailable (e : exn) : call :=
  SetUnavailable ("Connection error: " ++ message_or_self e).

(** The device after one tick, in closed form. *)
Definition tick (nut : Nut) (d : Device) : Device :=
  let connected := add_calls (attempted nut) d in
  match client_failure nut with
  | Some e => add_calls [unavailable e; NutClose] connected
  | None =>
      match GetUPSVars nut with
      | Normal res =>
          let r := setCapabilities (parseUPSStatus res) connected in
          add_calls
            [ match fst r with
              | Normal _ => SetAvailable
              | Throw e => unavailable e
              end; NutClose ]
            (snd r)
      | Throw _ => connected
      end
  end.


(** How many times a connection was opened. *)
Definition starts (cs : list call) : nat :=
  length (List.filter (fun c => match c with NutStart => true | _ => false end) cs).

Section PollingVocabulary.

Context {setting : Type} (strict_equal : setting -> setting -> bool).

(** The instance after a sequence of settings changes, each given by the
    old and the new value of [interval]. *)
Definition after_settings (events : list (setting * setting))
    (i : Instance (setting := setting)) : Instance :=
  fold_left (fun inst ev => onSettings strict_equal (fst ev) (snd ev) inst)
            events i.

(** The value of [interval] that is in force: the new value of the last
    change whose old and new values differ, or the initial one. *)
Definition interval_in_force (initial : setting)
    (events : list (setting * setting)) : setting :=
  fold_left (fun cur ev => if strict_equal (fst ev) (snd ev) then cur else snd ev)
            events initial.

(** One timer runs, it is the one [this.interval] holds, and it was
    created from [v]. *)
Definition polls (i : Instance (setting := setting)) (v : setting) : Prop :=
  exists handle, interval i = Some handle /\ timers i = [(handle, v)].

End PollingVocabulary.

(** * Properties *)

(** ** The built-ins on small inputs *)

Example trim_example : trim "  OL CHRG " = "OL CHRG".
Proof. reflexivity. Qed.

Example startsWith_example :
  startsWith "OL" "OL" = true
  /\ startsWith "OL CHRG" "OL" = true
  /\ startsWith "OLX" "OL" = true
  /\ startsWith "OB" "OL" = false
  /\ startsWith "O" "OL" = false
  /\ startsWith " OL" "OL" = false
  /\ startsWith "ol" "OL" = false.
Proof. repeat split. Qed.

Example split_example :
  split " " "OL  CHRG" = ["OL"; ""; "CHRG"] /\ split "." "" = [""].
Proof. split; reflexivity. Qed.

Example parseInt_examples :
  parseInt " -12abc" = Decimal true 12 0
  /\ parseInt "230.4" = Decimal false 230 0
  /\ parseInt "abc" = NaN
  /\ parseInt "" = NaN.
Proof. repeat split. Qed.

Example parseFloat_examples :
  parseFloat "13.5" = Decimal false 135 (-1)
  /\ parseFloat ".5e-2x" = Decimal false 5 (-3)
  /\ parseFloat "5." = Decimal false 5 0
  /\ parseFloat "-Infinity" = Infinity true
  /\ parseFloat "volts" = NaN.
Proof. repeat split. Qed.

(** Numbers are rounded to doubles: the integers from [2^53] on are not
    all apart, a literal beyond the largest double is an infinity, one
    below half the smallest is a zero, and two literals of one value
    are one Number. *)
Example number_examples :
  parseInt "100" = S754_finite false 7036874417766400 (-46)
  /\ parseFloat "0.1" = S754_finite false 7205759403792794 (-56)
  /\ parseInt "9007199254740993" = parseInt "9007199254740992"
  /\ parseInt "9007199254740993" = S754_finite false 4503599627370496 1
  /\ parseInt "9007199254740995" = parseInt "9007199254740996"
  /\ parseFloat "1e999" = Infinity false
  /\ parseFloat "-1.7976931348623159e308" = Infinity true
  /\ parseFloat "1.7976931348623157e308" =
       S754_finite false 9007199254740991 971
  /\ parseFloat "5e-324" = S754_finite false 1 (-1074)
  /\ parseFloat "2e-324" = S754_zero false
  /\ parseFloat "27.30" = parseFloat "27.3"
  /\ parseInt "-0" = S754_zero true.
Proof. repeat apply conj; vm_compute; reflexivity. Qed.

Example array_from_set_example :
  array_from_set ["a"; "b"; "a"; "c"; "b"] = ["a"; "b"; "c"].
Proof. reflexivity. Qed.

Example strip_trailing_comma_example :
  strip_trailing_comma "Online, Battery Charging, " = "Online, Battery Charging".
Proof. reflexivity. Qed.

Example parseUPSStatus_example :
  parseUPSStatus
    (list_to_map [ ("ups.model", "Back-UPS"); ("battery.charge", "100");
                   ("ups.status", "OB DISCHRG"); ("input.voltage", "230.4");
                   ("battery.voltage", "13.5"); ("ups.load", "  ") ]) =
  {| values :=
       [ ("name", VStr "Back-UPS");
         ("measure_battery", VNum (Decimal false 100 0));
         ("measure_battery_runtime", VNull);
         ("measure_temperature", VNull);
         ("id", VNull);
         ("measure_voltage",
           VObj [ ("input", VNum (Decimal false 230 0)); ("output", VNull) ]);
         ("status", VStr "On Battery, Battery Discharging");
         ("alarm_status", VBool true);
         ("measure_battery_voltage", VNum (Decimal false 135 (-1))) ];
     capabilities :=
       [ "measure_battery"; "measure_voltage.input"; "status"; "alarm_status";
         "measure_battery_voltage" ] |}.
Proof. reflexivity. Qed.

(** ** Strings *)

Lemma append_cons (c : ascii) (s t : string) :
  String c s ++ t = String c (s ++ t).
Proof. reflexivity. Qed.

Lemma append_empty_l (s : string) : "" ++ s = s.
Proof. reflexivity. Qed.

Lemma append_empty_r (s : string) : s ++ "" = s.
Proof.
  induction s as [|c s IH]; [reflexivity |].
  now rewrite append_cons, IH.
Qed.

Lemma append_assoc (a b c : string) : (a ++ b) ++ c = a ++ (b ++ c).
Proof.
  induction a as [|x a IH]; [reflexivity |].
  now rewrite !append_cons, IH.
Qed.

Lemma trimEnd_all_white_space (s : string) :
  all_white_space s = true -> trimEnd s = "".
Proof.
  induction s as [|c s IH]; simpl; [reflexivity |].
  intros [Hc Hs]%andb_true_iff. now rewrite (IH Hs), Hc.
Qed.

Lemma trimEnd_empty (s : string) :
  trimEnd s = "" -> all_white_space s = true.
Proof.
  induction s as [|c s IH]; simpl; [reflexivity |].
  destruct (trimEnd s) eqn:E; [| discriminate].
  destruct (is_white_space c); [| discriminate].
  intros _. now rewrite IH.
Qed.

Lemma trimStart_all_white_space (s : string) :
  all_white_space (trimStart s) = all_white_space s.
Proof.
  induction s as [|c s IH]; simpl; [reflexivity |].
  destruct (is_white_space c) eqn:E; simpl; [exact IH | now rewrite E].
Qed.

(** [startsWith] tests that the string is the searched text followed by
    something. *)
Lemma startsWith_spec (s search : string) :
  startsWith s search = true <-> exists rest, s = search ++ rest.
Proof.
  unfold startsWith. revert s.
  induction search as [|a p IH]; intros s.
  - split; [intros _; now exists s | intros _; now destruct s].
  - destruct s as [|b s]; simpl.
    + split; [discriminate | intros (rest & H); discriminate H].
    + destruct (ascii_dec a b) as [->|Hne].
      * rewrite IH. split; intros (rest & H); exists rest.
        -- now rewrite append_cons, H.
        -- rewrite append_cons in H. now injection H.
      * split; [discriminate |]. intros (rest & H).
        rewrite append_cons in H. injection H as H1 _. congruence.
Qed.

(** A string is blank exactly when it consists of white space only. *)
Lemma blank_string (s : string) : blank (VStr s) = all_white_space s.
Proof.
  unfold blank, trim. destruct (all_white_space s) eqn:E.
  - rewrite trimEnd_all_white_space; [reflexivity |].
    now rewrite trimStart_all_white_space.
  - apply String.eqb_neq. intros H%trimEnd_empty.
    rewrite trimStart_all_white_space in H. congruence.
Qed.

Lemma filled_string (s : string) : filled (VStr s) = negb (all_white_space s).
Proof. unfold filled. now rewrite blank_string. Qed.

(** ** Plain objects *)

Lemma includes_elem_of (l : list string) (x : string) :
  includes l x = true <-> x ∈ l.
Proof.
  unfold includes. rewrite existsb_exists. split.
  - intros (y & Hy & ->%String.eqb_eq). now apply list_elem_of_In.
  - intros H. exists x. split; [now apply list_elem_of_In | apply String.eqb_refl].
Qed.

Lemma includes_not_elem_of (l : list string) (x : string) :
  includes l x = false <-> x ∉ l.
Proof.
  rewrite <- includes_elem_of. destruct (includes l x); split; congruence.
Qed.

Lemma own_None {A} (props : list (string * A)) (k : string) :
  own props k = None <-> k ∉ map fst props.
Proof.
  induction props as [|[k' v] rest IH]; simpl.
  - split; [intros _; apply not_elem_of_nil | reflexivity].
  - destruct (String.eqb_spec k k') as [->|Hne].
    + split; [discriminate | intros H; exfalso; apply H; left].
    + rewrite IH. rewrite not_elem_of_cons. tauto.
Qed.

Lemma own_app_l {A} (l1 l2 : list (string * A)) (k : string) (v : A) :
  own l1 k = Some v -> own (l1 ++ l2) k = Some v.
Proof.
  induction l1 as [|[k' v'] rest IH]; simpl; [discriminate |].
  destruct (String.eqb k k'); auto.
Qed.

Lemma own_app_r {A} (l1 l2 : list (string * A)) (k : string) :
  own l1 k = None -> own (l1 ++ l2) k = own l2 k.
Proof.
  induction l1 as [|[k' v'] rest IH]; simpl; [reflexivity |].
  destruct (String.eqb k k'); [discriminate | auto].
Qed.

(** ** Numbers *)









(** A mantissa of 53 bits with an exponent in range is kept as it is. *)
Lemma digits2_pos_size (p : positive) : digits2_pos p = Pos.size p.
Proof. induction p; simpl; congruence. Qed.

Lemma digits2_pos_iter (p k : positive) :
  digits2_pos (Pos.iter xO p k) = (digits2_pos p + k)%positive.
Proof.
  induction k using Pos.peano_ind.
  - simpl. lia.
  - rewrite Pos.iter_succ. simpl. rewrite IHk. lia.
Qed.

Lemma Zpos_iter (p k : positive) :
  Zpos (Pos.iter xO p k) = (Zpos p * 2 ^ Zpos k)%Z.
Proof.
  induction k using Pos.peano_ind.
  - simpl. lia.
  - rewrite Pos.iter_succ, Pos2Z.inj_succ, Z.pow_succ_r by lia.
    rewrite Pos2Z.inj_xO, IHk. lia.
Qed.

Lemma binary_round_aux_canonical (s : bool) (m : positive) (e : Z) :
  Zpos (digits2_pos m) = prec -> (-1074 <= e <= 971)%Z ->
  binary_round_aux prec emax s (Zpos m) e loc_Exact = S754_finite s m e.
Proof.
  intros Hd He. unfold binary_round_aux.
  assert (Hs : forall l, l = loc_Exact ->
            shr_fexp prec emax (Zpos m) e l =
            ({| shr_m := Zpos m; shr_r := false; shr_s := false |}, e)).
  { intros l ->. unfold shr_fexp, Zdigits2, fexp, SpecFloat.emin. rewrite Hd.
    unfold prec, emax.
    replace (Z.max (53 + e - 53) (3 - 1024 - 53) - e)%Z with 0%Z by lia.
    reflexivity. }
  rewrite (Hs _ eq_refl). cbn [shr_m loc_of_shr_record round_nearest_even].
  rewrite (Hs _ eq_refl). cbn [shr_m].
  unfold prec, emax. destruct (Z.leb_spec e (1024 - 53)); [reflexivity | lia].
Qed.

Lemma digits2_pos_bound (p : positive) :
  (Zpos p < 2 ^ 53)%Z -> (Zpos (digits2_pos p) <= 53)%Z.
Proof.
  intros H. rewrite digits2_pos_size.
  destruct (Z.le_gt_cases (Zpos (Pos.size p)) 53) as [|Hgt]; [assumption |].
  exfalso. pose proof (Pos.size_le p) as Hle.
  assert (Hp : (2 ^ Zpos (Pos.size p) <= 2 * Zpos p)%Z).
  { change 2%Z with (Zpos 2) at 1. rewrite <- Pos2Z.inj_pow. 
    change (2 * Zpos p)%Z with (Zpos p~0). now apply Pos2Z.pos_le_pos. }
  assert ((2 ^ 54 <= 2 ^ Zpos (Pos.size p))%Z) by (apply Z.pow_le_mono_r; lia).
  lia.
Qed.

Lemma Decimal_safe_integer (neg : bool) (n : N) :
  (n <= 9007199254740991)%N ->
  integer_value (Decimal neg n 0) = Some (cond_Zopp neg (Z.of_N n)).
Proof.
  intros Hn. destruct n as [|p]; [now destruct neg |].
  unfold Decimal, binary_round.
  pose proof (digits2_pos_bound p ltac:(lia)) as Hd.
  unfold shl_align, fexp, SpecFloat.emin, prec, emax.
  replace (Z.max (Zpos (digits2_pos p) + 0 - 53) (3 - 1024 - 53) - 0)%Z
    with (Zpos (digits2_pos p) - 53)%Z by lia.
  destruct (Zpos (digits2_pos p) - 53)%Z as [|k|k] eqn:Ek; [| lia |].
  - rewrite binary_round_aux_canonical; [| unfold prec; lia | lia].
    simpl. f_equal. f_equal. lia.
  - replace (Z.max _ _) with (Zneg k) by lia.
    rewrite binary_round_aux_canonical.
    + simpl. rewrite Zpos_iter.
      rewrite Z.mod_mul, Z.eqb_refl by lia.
      rewrite Z.div_mul by lia. reflexivity.
    + rewrite digits2_pos_iter. unfold prec. lia.
    + lia.
Qed.

(** ** The translator *)

(** The values object of the translator, entry by entry. *)
Lemma parseUPSStatus_values (body : gmap string string) :
  values (parseUPSStatus body) =
  (fixed_values body
    ++ optional_value parseInt "measure_load" (raw_filled body "ups.load")
    ++ optional_value parseFloat "measure_battery_voltage"
         (raw_filled body "battery.voltage"))%list.
Proof.
  unfold parseUPSStatus, fixed_values, raw_filled, if_filled at 7.
  destruct (body !! "ups.load") as [l|];
    [destruct (filled (VStr l)) |];
    (destruct (body !! "battery.voltage") as [v|];
       [destruct (filled (VStr v)) |]);
    (destruct (body !! "ups.status") as [s|];
       [destruct (filled (VStr s)) eqn:Es |]);
    cbn -[parseInt parseFloat]; rewrite ?Es; reflexivity.
Qed.

Lemma parseUPSStatus_capabilities (body : gmap string string) :
  capabilities (parseUPSStatus body) =
  capabilities_of (values (parseUPSStatus body)).
Proof. reflexivity. Qed.

Lemma get_fixed (body : gmap string string) (k : string) (v : jsval) :
  own (fixed_values body) k = Some v ->
  get_prop (values (parseUPSStatus body)) k = v.
Proof.
  intros H. unfold get_prop.
  now rewrite parseUPSStatus_values, (own_app_l _ _ _ _ H).
Qed.





(** C5 (amended). [alarm_status] is [true] exactly when the raw
    [ups.status] is filled and its text does not begin with the two
    characters [OL]. It is [false] when the text begins with [OL],
    whatever follows, and when [ups.status] is absent; it is a boolean
    in every case. *)
Theorem C5_alarm_status (body : gmap string string) :
  let alarm := get_prop (values (parseUPSStatus body)) "alarm_status" in
  (alarm = VBool true <->
     exists s, body !! "ups.status" = Some s
               /\ filled (VStr s) = true
               /\ forall rest, s <> "OL" ++ rest)
  /\ (alarm = VBool true \/ alarm = VBool false)
  /\ (body !! "ups.status" = None -> alarm = VBool false)
  /\ (forall rest, body !! "ups.status" = Some ("OL" ++ rest) ->
      alarm = VBool false).
Proof.
  cbv zeta.
  rewrite (get_fixed body "alarm_status" _ eq_refl).
  unfold raw_filled.
  destruct (body !! "ups.status") as [s|].
  - destruct (filled (VStr s)) eqn:Ef.
    + destruct (startsWith s "OL") eqn:Es; simpl.
      * apply startsWith_spec in Es as [tail ->].
        split; [| split; [now right | split; [discriminate | reflexivity]]].
        split; [discriminate |].
        intros (s' & [= <-] & _ & H). now destruct (H tail).
      * assert (Hno : forall rest, s <> "OL" ++ rest).
        { intros rest ->.
          assert (Ht : startsWith ("OL" ++ rest) "OL" = true)
            by (apply startsWith_spec; now exists rest).
          congruence. }
        split; [| split; [now left | split; [discriminate |]]].
        -- split; [| reflexivity]. intros _. now exists s.
        -- intros rest [= ->]. now destruct (Hno rest).
    + split; [| split; [now right | split; [discriminate | reflexivity]]].
      split; [discriminate |].
      intros (s' & [= <-] & H & _). congruence.
  - split; [| split; [now right | split; [reflexivity | discriminate]]].
    split; [discriminate |]. intros (s' & [=] & _).
Qed.

Lemma C5_alarm_status_witness :
  get_prop (values (parseUPSStatus {[ "ups.status" := "OL CHRG" ]}))
    "alarm_status" = VBool false
  /\ get_prop (values (parseUPSStatus {[ "ups.status" := "OB DISCHRG" ]}))
       "alarm_status" = VBool true.
Proof.
  split.
  - destruct (C5_alarm_status {[ "ups.status" := "OL CHRG" ]})
      as (_ & _ & _ & H).
    exact (H " CHRG" eq_refl).
  - destruct (C5_alarm_status {[ "ups.status" := "OB DISCHRG" ]})
      as ([_ H] & _).
    apply H. exists "OB DISCHRG".
    split; [reflexivity | split; [reflexivity |]].
    intros rest Hr. rewrite !append_cons in Hr. discriminate Hr.
Defined.

(** C5, the claim as stated fails: the code tests the first two
    characters, not the first token. The status [OLX] is filled and its
    only token is [OLX], which is not the token [OL]; [alarm_status] is
    [false] all the same. *)
Lemma C5_prefix_is_not_a_token :
  filled (VStr "OLX") = true
  /\ split " " "OLX" = ["OLX"]
  /\ String.eqb "OLX" "OL" = false
  /\ get_prop (values (parseUPSStatus {[ "ups.status" := "OLX" ]}))
       "alarm_status" = VBool false.
Proof. repeat split. Qed.

(** ** The readable status *)

Lemma split_nonempty (sep : ascii) (s : string) : split sep s <> [].
Proof.
  destruct s as [|c s]; simpl; [discriminate |].
  destruct (Ascii.eqb c sep); [discriminate |].
  destruct (split sep s); discriminate.
Qed.

Lemma fold_left_flatten (f : string -> string) (ws : list string) (acc : string) :
  fold_left (fun acc word => acc ++ f word ++ ", ") ws acc =
  acc ++ flatten (map (fun word => f word ++ ", ") ws).
Proof.
  revert acc. induction ws as [|w ws IH]; intros acc; simpl.
  - now rewrite append_empty_r.
  - now rewrite IH, !append_assoc.
Qed.

Lemma all_white_space_app (a b : string) :
  all_white_space (a ++ b) = all_white_space a && all_white_space b.
Proof.
  induction a as [|c a IH]; [reflexivity |].
  rewrite append_cons. simpl. now rewrite IH, andb_assoc.
Qed.

Lemma strip_no_comma (a r : string) :
  no_comma a = true ->
  strip_trailing_comma (a ++ r) = a ++ strip_trailing_comma r.
Proof.
  induction a as [|c a IH]; [reflexivity |].
  simpl. intros [Hc Ha]%andb_true_iff.
  rewrite !append_cons. simpl.
  apply negb_true_iff in Hc. rewrite Hc. simpl. now rewrite IH.
Qed.

Lemma strip_separator (r : string) :
  all_white_space r = false ->
  strip_trailing_comma (", " ++ r) = ", " ++ strip_trailing_comma r.
Proof.
  intros H. change (", " ++ r) with (String "," (String " " r)).
  cbn -[is_white_space]. rewrite H. reflexivity.
Qed.

Lemma flatten_separated_not_white (labels : list string) :
  labels <> [] ->
  all_white_space (flatten (map (fun l => l ++ ", ") labels)) = false.
Proof.
  destruct labels as [|l rest]; [congruence |]. intros _. simpl.
  rewrite !all_white_space_app. simpl.
  now rewrite andb_false_r.
Qed.

(** Cutting the trailing separator off the accumulated text leaves the
    labels joined by the separator. *)
Lemma strip_flatten (labels : list string) :
  labels <> [] ->
  Forall (fun l => no_comma l = true) labels ->
  strip_trailing_comma (flatten (map (fun l => l ++ ", ") labels)) =
  String.concat ", " labels.
Proof.
  induction labels as [|l rest IH]; [congruence |].
  intros _ Hall. inversion Hall as [|? ? Hl Hrest]; subst.
  destruct rest as [|l2 rest].
  - simpl. rewrite append_empty_r, strip_no_comma by assumption.
    change (strip_trailing_comma ", ") with "". apply append_empty_r.
  - change (flatten (map (fun l => l ++ ", ") (l :: l2 :: rest)))
      with ((l ++ ", ") ++ flatten (map (fun l => l ++ ", ") (l2 :: rest))).
    rewrite append_assoc, strip_no_comma by assumption.
    rewrite strip_separator
      by (apply flatten_separated_not_white; discriminate).
    rewrite IH by (assumption || discriminate).
    reflexivity.
Qed.

Lemma own_Some_In {A} (props : list (string * A)) (k : string) (v : A) :
  own props k = Some v -> In (k, v) props.
Proof.
  induction props as [|[k' v'] rest IH]; simpl; [discriminate |].
  destruct (String.eqb_spec k k') as [->|_].
  - intros [= ->]. now left.
  - intros H. right. auto.
Qed.

Lemma state_label_no_comma (word : string) : no_comma (state_label word) = true.
Proof.
  unfold state_label. destruct (own STATE_TYPES word) as [label|] eqn:E.
  - apply own_Some_In in E.
    assert (H : forallb (fun kv => no_comma (snd kv)) STATE_TYPES = true)
      by reflexivity.
    rewrite forallb_forall in H. exact (H _ E).
  - destruct (inherited word) eqn:Ei; [| reflexivity].
    unfold inherited in Ei. apply existsb_exists in Ei.
    destruct Ei as (k & Hk & ->%String.eqb_eq).
    assert (H : forallb (fun k => no_comma (builtin_text k))
                  object_prototype_keys = true) by reflexivity.
    rewrite forallb_forall in H. exact (H _ Hk).
Qed.

Lemma readable_status_join (status : string) :
  readable_status status =
  String.concat ", " (map state_label (split " " status)).
Proof.
  unfold readable_status. rewrite fold_left_flatten, append_empty_l.
  rewrite <- (map_map state_label (fun l => l ++ ", ")).
  apply strip_flatten.
  - intros H%map_eq_nil. exact (split_nonempty _ _ H).
  - apply List.Forall_forall. intros l (w & <- & _)%in_map_iff.
    apply state_label_no_comma.
Qed.

(** C6 (amended). For a filled raw [ups.status] the readable status is
    the labels of its space-separated tokens, in order, joined by a comma
    and a space, with no trailing separator. A listed flag renders as its
    label; a token that is neither a listed flag nor a property name of
    [Object.prototype] renders as the word [undefined], not as an empty
    segment. *)
Theorem C6_readable_status (body : gmap string string) (s : string) :
  body !! "ups.status" = Some s ->
  filled (VStr s) = true ->
  get_prop (values (parseUPSStatus body)) "status" =
    VStr (String.concat ", " (map state_label (split " " s)))
  /\ (forall flag label, In (flag, label) STATE_TYPES -> state_label flag = label)
  /\ (forall word, own STATE_TYPES word = None -> inherited word = false ->
                   state_label word = "undefined").
Proof.
  intros Hs Hf. split; [| split].
  - rewrite <- readable_status_join.
    rewrite (get_fixed body "status" _ eq_refl).
    unfold raw_filled. now rewrite Hs, Hf.
  - intros flag label H. simpl in H.
    repeat (destruct H as [[= <- <-]|H]; [reflexivity |]). contradiction.
  - intros word Ho Hi. unfold state_label. now rewrite Ho, Hi.
Qed.

Lemma C6_readable_status_witness :
  get_prop (values (parseUPSStatus {[ "ups.status" := "OL CHRG" ]})) "status" =
    VStr "Online, Battery Charging".
Proof.
  exact (proj1 (C6_readable_status {[ "ups.status" := "OL CHRG" ]} "OL CHRG"
                  eq_refl eq_refl)).
Defined.

(** C6, the claim as stated fails: the unknown token [FOO] renders as
    the word [undefined], not as an empty segment. *)
Lemma C6_unknown_token_renders_undefined :
  filled (VStr "OL FOO") = true
  /\ get_prop (values (parseUPSStatus {[ "ups.status" := "OL FOO" ]})) "status" =
       VStr "Online, undefined"
  /\ state_label "FOO" = "undefined".
Proof. split; [| split]; reflexivity. Qed.

(** ** Optional fields and the capability list *)

(** Every capability name is a key of the values object, or such a key
    followed by a dot and a sub-key. *)
Lemma capabilities_of_In (vals : list (string * jsval)) (c : string) :
  In c (capabilities_of vals) ->
  exists key value, In (key, value) vals
    /\ filled value = true
    /\ (c = key \/ exists sub, c = key ++ "." ++ sub).
Proof.
  unfold capabilities_of. intros ([key value] & Hin & Hc)%in_flat_map.
  exists key, value. split; [assumption |].
  destruct (filled value); [| destruct Hc]. split; [reflexivity |].
  destruct (negb (includes notCapabilities key)); [| destruct Hc].
  cbn [andb] in Hc.
  destruct value; try (destruct Hc as [<-|[]]; now left); [| destruct Hc].
  apply in_flat_map in Hc. destruct Hc as ([subKey subValue] & _ & Hc).
  destruct (filled subValue); [| destruct Hc].
  destruct Hc as [<-|[]]. right. now exists subKey.
Qed.

(** A filled scalar entry under a key other than [name] and [id] yields
    its key as a capability. *)
Lemma capabilities_of_number (vals : list (string * jsval)) (key : string)
    (n : number) :
  In (key, VNum n) vals ->
  includes notCapabilities key = false ->
  In key (capabilities_of vals).
Proof.
  intros Hin Hk. unfold capabilities_of. apply in_flat_map.
  exists (key, VNum n). split; [assumption |].
  cbv beta iota. rewrite Hk. now left.
Qed.

Lemma fixed_keys (body : gmap string string) :
  map fst (fixed_values body) =
  [ "name"; "measure_battery"; "measure_battery_runtime";
    "measure_temperature"; "id"; "measure_voltage"; "status"; "alarm_status" ].
Proof. reflexivity. Qed.

(** No capability derived from the fixed fields bears the name of an
    optional field. *)
Lemma fixed_not_optional (body : gmap string string) (vals : list (string * jsval))
    (c : string) :
  map fst vals = map fst (fixed_values body) ->
  c = "measure_load" \/ c = "measure_battery_voltage" ->
  ~ In c (capabilities_of vals).
Proof.
  intros Hkeys Hc (key & value & Hin & _ & Hform)%capabilities_of_In.
  apply (in_map fst) in Hin. rewrite Hkeys, fixed_keys in Hin. simpl in Hin.
  repeat (destruct Hin as [<-|Hin];
          [destruct Hform as [->|[sub ->]]; destruct Hc as [Hc|Hc];
           vm_compute in Hc; discriminate Hc |]).
  destruct Hin.
Qed.

(** C8. When the raw [ups.load] (respectively [battery.voltage]) is
    absent or blank, the values object has no key [measure_load]
    (respectively [measure_battery_voltage]) and the capability list does
    not name it; when the raw value is filled, the key is present, with
    the parsed Number, and the capability list names it. *)
Theorem C8_optional_fields (body : gmap string string) :
  let st := parseUPSStatus body in
  ((forall s, body !! "ups.load" = Some s -> blank (VStr s) = true) ->
     ("measure_load" ∉ map fst (values st))
     /\ ("measure_load" ∉ capabilities st))
  /\ ((forall s, body !! "battery.voltage" = Some s -> blank (VStr s) = true) ->
     ("measure_battery_voltage" ∉ map fst (values st))
     /\ ("measure_battery_voltage" ∉ capabilities st))
  /\ (forall s, body !! "ups.load" = Some s -> filled (VStr s) = true ->
     own (values st) "measure_load" = Some (VNum (parseInt s))
     /\ "measure_load" ∈ capabilities st)
  /\ (forall s, body !! "battery.voltage" = Some s -> filled (VStr s) = true ->
     own (values st) "measure_battery_voltage" = Some (VNum (parseFloat s))
     /\ "measure_battery_voltage" ∈ capabilities st).
Proof.
  cbv zeta. rewrite parseUPSStatus_capabilities, parseUPSStatus_values.
  assert (Hblank : forall k,
    (forall s, body !! k = Some s -> blank (VStr s) = true) ->
    raw_filled body k = None).
  { intros k H. unfold raw_filled, filled.
    destruct (body !! k) as [s|]; [| reflexivity]. now rewrite (H s eq_refl). }
  assert (Hfilled : forall k s,
    body !! k = Some s -> filled (VStr s) = true -> raw_filled body k = Some s).
  { intros k s H1 H2. unfold raw_filled. now rewrite H1, H2. }
  unfold capabilities_of. rewrite !flat_map_app.
  fold (capabilities_of (fixed_values body)).
  pose proof (fixed_not_optional body (fixed_values body)) as Hfix.
  repeat split.
  - rewrite <- own_None, (Hblank _ H). simpl.
    destruct (raw_filled body "battery.voltage"); reflexivity.
  - rewrite (Hblank _ H). rewrite list_elem_of_In, !in_app_iff.
    intros [Hin|[[]|Hin]].
    + now apply (Hfix "measure_load" eq_refl (or_introl eq_refl)).
    + destruct (raw_filled body "battery.voltage"); simpl in Hin;
        [destruct Hin as [[=]|[]] | contradiction].
  - rewrite <- own_None, (Hblank _ H). simpl.
    destruct (raw_filled body "ups.load"); reflexivity.
  - rewrite (Hblank _ H). rewrite list_elem_of_In, !in_app_iff.
    intros [Hin|[Hin|[]]].
    + now apply (Hfix "measure_battery_voltage" eq_refl (or_intror eq_refl)).
    + destruct (raw_filled body "ups.load"); simpl in Hin;
        [destruct Hin as [[=]|[]] | contradiction].
  - rewrite (Hfilled _ _ H H0). reflexivity.
  - rewrite (Hfilled _ _ H H0). rewrite list_elem_of_In, !in_app_iff.
    right. left. now left.
  - rewrite (Hfilled _ _ H H0). simpl.
    destruct (raw_filled body "ups.load"); reflexivity.
  - rewrite (Hfilled _ _ H H0). rewrite list_elem_of_In, !in_app_iff.
    right. right. now left.
Qed.

(** ** The reconciler, phase by phase *)

Section Phases.

Context (status : Status).

Lemma add_calls_nil (d : Device) : add_calls [] d = d.
Proof. destruct d. unfold add_calls. simpl. now rewrite app_nil_r. Qed.

Lemma add_calls_app (cs1 cs2 : list call) (d : Device) :
  add_calls cs2 (add_calls cs1 d) = add_calls (cs1 ++ cs2) d.
Proof. unfold add_calls. simpl. now rewrite app_assoc. Qed.

(** One turn of the value loop: a write, or a throw that leaves the
    device as it is. *)
Lemma propagate_resolved (c : string) (d : Device) :
  propagate status c d =
  match resolved status c with
  | Some a => (Normal tt, add_calls [SetCapabilityValue (written_name c) a] d)
  | None => (Throw (type_error (List.last (split "." c) "")), d)
  end.
Proof.
  unfold propagate, resolved, written_name, get_sub, updateValue,
    setCapabilityValue, bind, ret, throw.
  destruct (1 <? length (split "." c))%nat; [| reflexivity].
  destruct (get_prop (values status) (hd "" (split "." c))); reflexivity.
Qed.

Lemma forEach_propagate (l : list string) (d : Device) :
  forEach l (propagate status) d = value_loop status l d.
Proof.
  unfold value_loop. revert d.
  induction l as [|c rest IH]; intros d; simpl.
  - now rewrite add_calls_nil.
  - unfold bind. rewrite propagate_resolved.
    destruct (resolved status c) as [a|].
    + now rewrite IH, add_calls_app.
    + now rewrite add_calls_nil.
Qed.

Lemma loop_completion_normal (l : list string) :
  loop_completion status l = Normal tt <-> all_resolved status l = true.
Proof.
  induction l as [|c rest IH]; simpl; [tauto |].
  destruct (resolved status c); [exact IH | split; discriminate].
Qed.

Lemma writes_elem_of (l : list string) (c : string) :
  all_resolved status l = true ->
  c ∈ l ->
  exists a, resolved status c = Some a
            /\ SetCapabilityValue (written_name c) a ∈ writes status l.
Proof.
  induction l as [|x rest IH]; intros Hall Hc; [now apply elem_of_nil in Hc |].
  simpl in Hall. apply andb_true_iff in Hall as [Hx Hrest]. simpl.
  destruct (resolved status x) as [a|] eqn:E; [| discriminate].
  apply elem_of_cons in Hc as [->|Hc].
  - exists a. split; [assumption | left].
  - destruct (IH Hrest Hc) as (a' & Ha' & Hin).
    exists a'. split; [assumption | now right].
Qed.

Lemma written_writes (l : list string) :
  all_resolved status l = true ->
  written (writes status l) = map written_name l.
Proof.
  induction l as [|x rest IH]; [reflexivity |]. simpl.
  intros [Hx Hrest]%andb_true_iff.
  destruct (resolved status x); [| discriminate]. simpl. now rewrite IH.
Qed.

Lemma dot_free_resolved (c : string) :
  length (split "." c) = 1%nat ->
  resolved status c = Some (Value (get_prop (values status) c))
  /\ written_name c = c.
Proof. intros H. unfold resolved, written_name. now rewrite H. Qed.

Lemma add_dynamic_spec (c : string) (d : Device) :
  add_dynamic status c d = (Normal tt, with_added (to_add status c (live d)) d).
Proof.
  unfold add_dynamic, to_add, with_added, hasCapability, addCapability,
    record_call, bind, ret.
  destruct (not_nullish (get_prop (values status) c)); simpl;
    [destruct (includes (live d) c); simpl |];
    destruct d; simpl; rewrite ?app_nil_r; reflexivity.
Qed.

Lemma with_added_twice (cs1 cs2 : list string) (d : Device) :
  with_added cs2 (with_added cs1 d) = with_added (cs1 ++ cs2) d.
Proof. unfold with_added. simpl. now rewrite map_app, !app_assoc. Qed.

Lemma add_dynamic_both (d : Device) :
  let d1 := with_added (to_add status "measure_load" (live d)) d in
  with_added (to_add status "measure_battery_voltage" (live d1)) d1 =
  after_adds status d.
Proof. cbv zeta. now rewrite with_added_twice. Qed.

Lemma forEach_remove (known l : list string) (d : Device) :
  forEach l (fun capability =>
               if negb (includes known capability)
               then removeCapability capability else ret tt) d =
  (Normal tt, with_removed (unknown known l) d).
Proof.
  revert d. induction l as [|c rest IH]; intros d; simpl.
  - unfold ret, with_removed, remove_all. destruct d; simpl.
    now rewrite app_nil_r.
  - unfold bind. destruct (negb (includes known c)); simpl.
    + unfold removeCapability at 1. rewrite IH. f_equal.
      unfold with_removed, record_call, remove_all. simpl.
      now rewrite <- app_assoc.
    + unfold ret at 1. apply IH.
Qed.

Lemma forEach_throw (e : exn) (l : list string) (d : Device) :
  forEach l (fun _ => throw e) d =
  match l with [] => (Normal tt, d) | _ :: _ => (Throw e, d) end.
Proof. destruct l; reflexivity. Qed.

Lemma first_run_pruning_known (known : list string) (d : Device) :
  first_run_pruning (Some true) (Some known) d =
  (Normal tt, with_first_run false (with_removed (unknown known (live d)) d)).
Proof.
  unfold first_run_pruning, getCapabilities, bind at 1 2.
  cbv beta iota. rewrite forEach_remove. reflexivity.
Qed.

Lemma first_run_pruning_unset (d : Device) :
  first_run_pruning (Some true) None d =
  match live d with
  | [] => (Normal tt, with_first_run false d)
  | _ :: _ => (Throw (type_error "includes"), d)
  end.
Proof.
  unfold first_run_pruning, getCapabilities, bind at 1 2.
  cbv beta iota. rewrite forEach_throw. now destruct (live d).
Qed.

(** The monadic reconciler and its closed form agree. *)
Lemma setCapabilities_reconciliation (d : Device) :
  setCapabilities status d = reconciliation status d.
Proof.
  unfold setCapabilities, reconciliation, bind at 1.
  rewrite add_dynamic_spec. unfold bind at 1. rewrite add_dynamic_spec.
  rewrite add_dynamic_both.
  unfold bind at 1 2, getStoreValue_first_run, getStoreValue_capabilities.
  cbv beta iota zeta.
  change (first_run (after_adds status d)) with (first_run d).
  change (stored_capabilities (after_adds status d)) with (stored_capabilities d).
  unfold bind.
  destruct (first_run d) as [[|]|].
  - destruct (stored_capabilities d) as [known|].
    + rewrite first_run_pruning_known. apply forEach_propagate.
    + rewrite first_run_pruning_unset.
      destruct (live (after_adds status d)); [apply forEach_propagate | reflexivity].
  - apply forEach_propagate.
  - apply forEach_propagate.
Qed.

End Phases.

(** Case analysis on a reconciliation: a first run with a stored list,
    a first run without one (nothing or something exposed), a later
    run, and a run with the flag unset. *)
Ltac reconcile_cases status d :=
  rewrite ?(setCapabilities_reconciliation status d) in *;
  unfold reconciliation, value_loop in *; cbv zeta in *;
  destruct (first_run d) as [[|]|] eqn:?Hfirst;
  [ destruct (stored_capabilities d) as [?known|] eqn:?Hstored;
    [ | destruct (live (after_adds status d)) as [|? ?] eqn:?Hlive ]
  | | ].

(** ** Sets of names *)

Lemma elem_of_remove_all (rs exposed : list string) (x : string) :
  x ∈ remove_all rs exposed <-> x ∈ exposed /\ x ∉ rs.
Proof.
  unfold remove_all. revert exposed.
  induction rs as [|r rs IH]; intros exposed; simpl.
  - split; [intros H; split; [assumption | apply not_elem_of_nil] | tauto].
  - rewrite IH, list_elem_of_filter, not_elem_of_cons. tauto.
Qed.

Lemma elem_of_unknown (known l : list string) (x : string) :
  x ∈ unknown known l <-> x ∈ l /\ x ∉ known.
Proof.
  unfold unknown. rewrite list_elem_of_In, filter_In, negb_true_iff,
    includes_not_elem_of, <- list_elem_of_In. tauto.
Qed.

Lemma set_add_elem_of (acc : list string) (x y : string) :
  y ∈ set_add acc x <-> y ∈ acc \/ y = x.
Proof.
  unfold set_add. fold (includes acc x).
  destruct (includes acc x) eqn:E.
  - apply includes_elem_of in E. split; [now left | intros [H| ->]; assumption].
  - rewrite elem_of_app, list_elem_of_singleton. reflexivity.
Qed.

Lemma set_add_NoDup (acc : list string) (x : string) :
  NoDup acc -> NoDup (set_add acc x).
Proof.
  intros H. unfold set_add. fold (includes acc x).
  destruct (includes acc x) eqn:E; [assumption |].
  apply includes_not_elem_of in E. apply NoDup_app. split; [assumption |].
  split; [| apply NoDup_singleton].
  intros y Hy ->%list_elem_of_singleton. contradiction.
Qed.

Lemma fold_set_add (l acc : list string) :
  NoDup acc ->
  NoDup (fold_left set_add l acc)
  /\ forall y, y ∈ fold_left set_add l acc <-> y ∈ acc \/ y ∈ l.
Proof.
  revert acc. induction l as [|x l IH]; intros acc Hacc; simpl.
  - split; [assumption |]. intros y. rewrite elem_of_nil. tauto.
  - destruct (IH (set_add acc x) (set_add_NoDup _ _ Hacc)) as [Hn Hin].
    split; [assumption |]. intros y.
    rewrite Hin, set_add_elem_of, elem_of_cons. tauto.
Qed.

(** [Array.from(new Set(l))] has no duplicates and the elements of [l]. *)
Lemma array_from_set_spec (l : list string) :
  NoDup (array_from_set l) /\ forall y, y ∈ array_from_set l <-> y ∈ l.
Proof.
  destruct (fold_set_add l [] (NoDup_nil_2 (A:=string))) as [Hn Hin].
  split; [assumption |]. intros y. unfold array_from_set.
  rewrite Hin, elem_of_nil. tauto.
Qed.

Lemma after_adds_live (status : Status) (d : Device) (c : string) :
  c ∈ live d -> c ∈ live (after_adds status d).
Proof. simpl. rewrite elem_of_app. now left. Qed.

(** Nothing is added when the live device exposes every optional
    capability for which the status has a value. *)
Lemma added_nil (status : Status) (d : Device) :
  (forall c, c = "measure_load" \/ c = "measure_battery_voltage" ->
             not_nullish (get_prop (values status) c) = true -> c ∈ live d) ->
  added status d = [].
Proof.
  intros H. unfold added.
  assert (Hto : forall c, c = "measure_load" \/ c = "measure_battery_voltage" ->
                          to_add status c (live d) = []).
  { intros c Hc. unfold to_add.
    destruct (not_nullish (get_prop (values status) c)) eqn:E; [| reflexivity].
    apply (H c Hc), includes_elem_of in E. now rewrite E. }
  rewrite (Hto "measure_load") by now left.
  rewrite app_nil_r. simpl. apply Hto. now right.
Qed.

(** ** The reconciler as a whole *)

(** The reconciler changes the store only through [first_run]. *)
Lemma setCapabilities_stored (status : Status) (d : Device) :
  stored_capabilities (snd (setCapabilities status d)) = stored_capabilities d.
Proof. reconcile_cases status d; simpl; congruence. Qed.

(** What a reconciliation that completes leaves behind. *)
Lemma setCapabilities_normal (status : Status) (d d1 : Device) :
  setCapabilities status d = (Normal tt, d1) ->
  all_resolved status (capabilityList (stored_capabilities d) status) = true
  /\ first_run d1 <> Some true.
Proof.
  reconcile_cases status d; intros [= Hc <-]; simpl;
    (split; [now apply loop_completion_normal | congruence]).
Qed.

Lemma written_app (cs1 cs2 : list call) :
  written (cs1 ++ cs2) = (written cs1 ++ written cs2)%list.
Proof. apply flat_map_app. Qed.

Lemma written_map_add (cs : list string) : written (map AddCapability cs) = [].
Proof. induction cs; [reflexivity | assumption]. Qed.

Lemma written_map_remove (cs : list string) : written (map RemoveCapability cs) = [].
Proof. induction cs; [reflexivity | assumption]. Qed.

Create Rewrite HintDb calls.
#[local] Hint Rewrite written_app written_map_add written_map_remove
  app_nil_r : calls.

(** In a reconciliation that completes, the values written are those of
    the capability list, in order. *)
Lemma setCapabilities_written (status : Status) (d d' : Device) :
  setCapabilities status d = (Normal tt, d') ->
  written (calls d') =
  (written (calls d)
     ++ map written_name (capabilityList (stored_capabilities d) status))%list.
Proof.
  reconcile_cases status d; intros [= Hc <-]; simpl;
    apply loop_completion_normal, written_writes in Hc;
    autorewrite with calls; simpl; autorewrite with calls;
    now rewrite Hc.
Qed.

Lemma first_run_false_kept (status : Status) (d : Device) :
  first_run d = Some false ->
  first_run (snd (setCapabilities status d)) = Some false.
Proof. intros H. reconcile_cases status d; simpl; congruence. Qed.

Lemma first_run_false_forever (later : list Status) (d : Device) :
  first_run d = Some false ->
  first_run (reconcile_all later d) = Some false.
Proof.
  unfold reconcile_all. revert d.
  induction later as [|st later IH]; intros d H; simpl; [assumption |].
  apply IH. now apply first_run_false_kept.
Qed.

(** C1 (amended). When the persisted [first_run] flag is [true] and the
    persisted capability list is set, reconciliation removes from the
    live device every exposed capability that is not in the persisted
    list, keeps those that are, and persists [first_run] as [false];
    the flag then stays [false] through all later reconciliations. (An
    unset flag is not a first run.) *)
Theorem C1_first_run_pruning (status : Status) (d : Device) (known : list string) :
  first_run d = Some true ->
  stored_capabilities d = Some known ->
  let d' := snd (setCapabilities status d) in
  (forall c, c ∈ live d -> c ∉ known ->
             (c ∉ live d') /\ (RemoveCapability c ∈ calls d'))
  /\ (forall c, c ∈ live d -> c ∈ known -> c ∈ live d')
  /\ (forall c, c ∈ live d' -> c ∈ known)
  /\ first_run d' = Some false
  /\ SetStoreValue "first_run" (VBool false) ∈ calls d'
  /\ (forall later, first_run (reconcile_all later d') = Some false).
Proof.
  intros Hf Hs. cbv zeta.
  assert (Hd : snd (setCapabilities status d) =
               add_calls (writes status (capabilityList (Some known) status))
                 (with_first_run false
                    (with_removed (unknown known (live (after_adds status d)))
                       (after_adds status d)))).
  { rewrite setCapabilities_reconciliation. unfold reconciliation.
    now rewrite Hf, Hs. }
  rewrite Hd. cbn [live calls first_run add_calls with_first_run with_removed].
  repeat split.
  - rewrite elem_of_remove_all, elem_of_unknown.
    intros [Hin Hn]. apply Hn. split; assumption.
  - assert (Hr : RemoveCapability c
                 ∈ map RemoveCapability
                     (unknown known (live (after_adds status d)))).
    { rewrite list_elem_of_In. apply in_map. rewrite <- list_elem_of_In.
      apply elem_of_unknown. split; [| assumption].
      now apply after_adds_live. }
    rewrite !elem_of_app. tauto.
  - intros c Hin Hk. rewrite elem_of_remove_all, elem_of_unknown.
    split; [now apply after_adds_live | tauto].
  - intros c [Hin Hn]%elem_of_remove_all.
    destruct (includes known c) eqn:E; [now apply includes_elem_of |].
    exfalso. apply Hn, elem_of_unknown. split; [assumption |].
    now apply includes_not_elem_of.
  - rewrite !elem_of_app, list_elem_of_singleton. tauto.
  - intros later. now apply first_run_false_forever.
Qed.

Lemma C1_first_run_pruning_witness :
  ("foo" ∉ live (snd (setCapabilities status_plain device_with_foo)))
  /\ first_run (snd (setCapabilities status_plain device_with_foo)) = Some false.
Proof.
  pose proof (C1_first_run_pruning status_plain device_with_foo
                ["measure_battery"; "measure_voltage.input"]
                eq_refl eq_refl) as H.
  cbv zeta in H. destruct H as (H1 & _ & _ & H4 & _).
  split; [| exact H4].
  apply (H1 "foo").
  - apply list_elem_of_In. simpl. tauto.
  - rewrite list_elem_of_In. simpl. intros [H|[H|[]]]; discriminate H.
Defined.

(** C1, the claim as stated fails: with [first_run] unset nothing is
    pruned. The device of the example above, with the flag unset, still
    exposes [foo] after a reconciliation that completes, and the flag is
    still unset. *)
Lemma C1_unset_first_run_prunes_nothing :
  let d := {| live := live device_with_foo; first_run := None;
              stored_capabilities := stored_capabilities device_with_foo;
              calls := [] |} in
  fst (setCapabilities status_plain d) = Normal tt
  /\ includes (live (snd (setCapabilities status_plain d))) "foo" = true
  /\ includes ["measure_battery"; "measure_voltage.input"] "foo" = false
  /\ first_run (snd (setCapabilities status_plain d)) = None.
Proof. repeat split. Qed.

(** C2 (amended). In every reconciliation that completes, the list of
    capabilities whose values are written is the status's capability
    list when the persisted list is unset, and otherwise the persisted
    list followed by the new names of the status, without duplicates.
    The merge is not persisted: the stored capability list is the same
    after the reconciliation as before it. *)
Theorem C2_merged_list (status : Status) (d d' : Device) :
  setCapabilities status d = (Normal tt, d') ->
  stored_capabilities d' = stored_capabilities d
  /\ exists merged,
       written (calls d') = (written (calls d) ++ map written_name merged)%list
       /\ match stored_capabilities d with
          | None => merged = capabilities status
          | Some known =>
              NoDup merged
              /\ forall c, c ∈ merged <-> c ∈ known \/ c ∈ capabilities status
          end.
Proof.
  intros E. split.
  - pose proof (setCapabilities_stored status d) as H. now rewrite E in H.
  - exists (capabilityList (stored_capabilities d) status).
    split; [now apply setCapabilities_written |].
    unfold capabilityList. destruct (stored_capabilities d) as [known|].
    + destruct (array_from_set_spec (known ++ capabilities status)) as [Hn Hin].
      split; [assumption |]. intros c. now rewrite Hin, elem_of_app.
    + reflexivity.
Qed.

Lemma C2_merged_list_witness :
  stored_capabilities (snd (setCapabilities status_with_load device_battery_stored)) =
    Some ["measure_battery"]
  /\ written (calls (snd (setCapabilities status_with_load device_battery_stored))) =
       ["measure_battery"; "alarm_status"; "measure_load"].
Proof.
  destruct (C2_merged_list status_with_load device_battery_stored
              (snd (setCapabilities status_with_load device_battery_stored))
              eq_refl)
    as [H _].
  split; [exact H | reflexivity].
Defined.

(** C2, the claim as stated fails: the union is not persisted. With
    [measure_battery] stored and a status that also has [measure_load],
    the reconciliation completes and the stored list is still
    [measure_battery] alone. *)
Lemma C2_union_is_not_persisted :
  fst (setCapabilities status_with_load device_battery_stored) = Normal tt
  /\ capabilities status_with_load =
       ["measure_battery"; "alarm_status"; "measure_load"]
  /\ stored_capabilities
       (snd (setCapabilities status_with_load device_battery_stored)) =
       Some ["measure_battery"]
  /\ includes ["measure_battery"] "measure_load" = false.
Proof. repeat split. Qed.

(** A reconciliation that is not a first run without a stored list
    completes when every name of its list can be read, and then makes
    every write of the list. *)
Lemma setCapabilities_completes (status : Status) (d : Device) :
  (first_run d = Some true -> stored_capabilities d <> None) ->
  let l := capabilityList (stored_capabilities d) status in
  all_resolved status l = true ->
  fst (setCapabilities status d) = Normal tt
  /\ forall w, w ∈ writes status l -> w ∈ calls (snd (setCapabilities status d)).
Proof.
  cbv zeta. reconcile_cases status d; intros Hfs Hall; simpl;
    try (now destruct (Hfs eq_refl));
    (split; [now apply loop_completion_normal |]);
    intros w Hw; rewrite elem_of_app; now right.
Qed.

Lemma new_calls_add_calls (cs : list call) (d d' : Device) :
  calls d' = (calls d ++ cs)%list -> new_calls d d' = cs.
Proof. intros H. unfold new_calls. now rewrite H, drop_app_length. Qed.

Lemma writes_app_readable (status : Status) (l1 l2 : list string) (c : string)
    (a : argument) :
  all_resolved status l1 = true ->
  resolved status c = Some a ->
  writes status (l1 ++ c :: l2) =
    (writes status l1 ++ SetCapabilityValue (written_name c) a
       :: writes status l2)%list
  /\ loop_completion status (l1 ++ c :: l2) = loop_completion status l2.
Proof.
  intros Hall Hc. induction l1 as [|x l1 IH]; simpl.
  - now rewrite Hc.
  - simpl in Hall. apply andb_true_iff in Hall as [Hx Hl].
    destruct (resolved status x); [| discriminate].
    destruct (IH Hl) as [-> ->]. now split.
Qed.

(** A reconciliation whose pruning loop does not throw runs the value
    loop over the whole list: it ends as that loop ends, and its calls
    are some calls that write no value, followed by the writes of the
    loop. *)
Lemma setCapabilities_value_loop (status : Status) (d : Device) :
  (first_run d = Some true -> stored_capabilities d = None ->
   live d = [] /\ added status d = []) ->
  let l := capabilityList (stored_capabilities d) status in
  fst (setCapabilities status d) = loop_completion status l
  /\ exists pre,
       calls (snd (setCapabilities status d)) =
         (calls d ++ pre ++ writes status l)%list
       /\ written pre = [].
Proof.
  cbv zeta. reconcile_cases status d; intros Hprune; cbn [fst snd];
    try (exfalso; destruct (Hprune eq_refl eq_refl) as [H1 H2];
         simpl in Hlive; rewrite H1, H2 in Hlive; discriminate Hlive);
    (split; [reflexivity |]).
  - exists (map AddCapability (added status d)
            ++ map RemoveCapability
                 (unknown known (live (after_adds status d)))
            ++ [SetStoreValue "first_run" (VBool false)])%list.
    split; [simpl; now rewrite <- !app_assoc | now autorewrite with calls].
  - exists (map AddCapability (added status d)
            ++ [SetStoreValue "first_run" (VBool false)])%list.
    split; [simpl; now rewrite <- !app_assoc | now autorewrite with calls].
  - exists (map AddCapability (added status d)).
    split; [simpl; now rewrite <- !app_assoc | now autorewrite with calls].
  - exists (map AddCapability (added status d)).
    split; [simpl; now rewrite <- !app_assoc | now autorewrite with calls].
Qed.

(** C3 (amended). Take a capability of the effective list that the
    value loop reaches: the pruning loop did not throw (it throws only
    on a first run with the stored list unset and a capability exposed)
    and every name before it in the list can be read. If its own value
    can be read (a name without a dot, or a dotted name whose parent is
    an object) and is not filled, it is written all the same: the
    callback of the value loop passes the unfilled value ([undefined],
    [null] or a blank string) to [setCapabilityValue] and does not
    throw. The write comes right after those of the names before it,
    and the reconciliation completes when the names after it can be
    read too. For a name without a dot the value is the entry of the
    values object under that name. *)
Theorem C3_unfilled_value_is_written (status : Status) (d : Device)
    (before after : list string) (c : string) (v : jsval) :
  capabilityList (stored_capabilities d) status = (before ++ c :: after)%list ->
  (first_run d = Some true -> stored_capabilities d = None ->
   live d = [] /\ added status d = []) ->
  all_resolved status before = true ->
  resolved status c = Some (Value v) ->
  filled v = false ->
  let write := SetCapabilityValue (written_name c) (Value v) in
  let d' := snd (setCapabilities status d) in
  (forall d0, propagate status c d0 = (Normal tt, record_call write d0))
  /\ write ∈ new_calls d d'
  /\ (exists later,
        written (calls d') =
          (written (calls d) ++ map written_name before
             ++ written_name c :: later)%list)
  /\ (all_resolved status after = true ->
      fst (setCapabilities status d) = Normal tt)
  /\ (length (split "." c) = 1%nat ->
      v = get_prop (values status) c /\ written_name c = c).
Proof.
  intros Hl Hprune Hall Hr _. cbv zeta.
  destruct (setCapabilities_value_loop status d Hprune)
    as (Hfst & pre & Hcalls & Hpre).
  rewrite Hl in Hfst, Hcalls.
  destruct (writes_app_readable status before after c _ Hall Hr) as [Hw Ht].
  rewrite Hw in Hcalls. rewrite Ht in Hfst.
  split; [| split; [| split; [| split]]].
  - intros d0. now rewrite propagate_resolved, Hr.
  - rewrite (new_calls_add_calls _ _ _ Hcalls), !elem_of_app.
    right. right. left.
  - exists (written (writes status after)).
    rewrite Hcalls, !written_app, Hpre, (written_writes status before Hall).
    reflexivity.
  - intros Hafter. rewrite Hfst. now apply loop_completion_normal.
  - intros Hone. destruct (dot_free_resolved status c Hone) as [Hd Hn].
    rewrite Hr in Hd. split; [now injection Hd | exact Hn].
Qed.

Lemma C3_unfilled_value_is_written_witness :
  fst (setCapabilities status_without_load device_unreadable_after_load) =
    Throw (type_error "y")
  /\ SetCapabilityValue "measure_load" (Value VUndefined)
       ∈ new_calls device_unreadable_after_load
           (snd (setCapabilities status_without_load
                   device_unreadable_after_load)).
Proof.
  split; [reflexivity |].
  destruct (C3_unfilled_value_is_written status_without_load
              device_unreadable_after_load
              ["measure_battery"] ["x.y"; "alarm_status"]
              "measure_load" VUndefined) as (_ & H & _).
  - reflexivity.
  - discriminate.
  - reflexivity.
  - reflexivity.
  - reflexivity.
  - exact H.
Defined.

(** C3, the claim as stated fails: a write is attempted. The stored list
    names [measure_load], the status has no value for it, and the
    reconciliation calls [setCapabilityValue] for it with [undefined]. *)
Lemma C3_write_is_attempted :
  filled (get_prop (values status_without_load) "measure_load") = false
  /\ includes
       (capabilityList (stored_capabilities device_load_stored)
          status_without_load)
       "measure_load" = true
  /\ calls (snd (setCapabilities status_without_load device_load_stored)) =
       [ SetCapabilityValue "measure_battery" (Value (VNum (Decimal false 80 0)));
         SetCapabilityValue "measure_load" (Value VUndefined);
         SetCapabilityValue "alarm_status" (Value (VBool false)) ].
Proof. repeat split. Qed.

(** C10. With [first_run] true, the stored capability list unset and at
    least one capability exposed, [setCapabilities] throws a [TypeError]
    at the first test of the pruning loop: every exposed capability
    stays exposed, [first_run] stays true, and the only calls made are
    the dynamic additions that precede the loop (no removal, no store
    write, no value write). *)
Theorem C10_first_run_without_stored_list (status : Status) (d : Device) :
  first_run d = Some true ->
  stored_capabilities d = None ->
  live d <> [] ->
  let r := setCapabilities status d in
  fst r = Throw (type_error "includes")
  /\ first_run (snd r) = Some true
  /\ stored_capabilities (snd r) = None
  /\ (forall c, c ∈ live d -> c ∈ live (snd r))
  /\ calls (snd r) = (calls d ++ map AddCapability (added status d))%list.
Proof.
  intros Hf Hs Hl. cbv zeta.
  rewrite setCapabilities_reconciliation. unfold reconciliation.
  rewrite Hf, Hs.
  destruct (live (after_adds status d)) as [|x rest] eqn:El.
  - exfalso. simpl in El. apply app_eq_nil in El as [El _]. contradiction.
  - cbn [fst snd]. repeat split; try assumption.
    intros c Hc. now apply after_adds_live.
Qed.

Lemma C10_first_run_without_stored_list_witness :
  let d := {| live := ["measure_battery"]; first_run := Some true;
              stored_capabilities := None; calls := [] |} in
  fst (setCapabilities status_with_load d) = Throw (type_error "includes")
  /\ snd (setCapabilities status_with_load d) =
       {| live := ["measure_battery"; "measure_load"]; first_run := Some true;
          stored_capabilities := None;
          calls := [AddCapability "measure_load"] |}.
Proof.
  cbv zeta.
  destruct (C10_first_run_without_stored_list status_with_load
              {| live := ["measure_battery"]; first_run := Some true;
                 stored_capabilities := None; calls := [] |}
              eq_refl eq_refl ltac:(discriminate)) as (H & _).
  split; [exact H | reflexivity].
Defined.

(** A status of the translator that has a value for an optional field
    lists it among its capabilities. *)
Lemma optional_in_capabilities (body : gmap string string) (c : string) :
  c = "measure_load" \/ c = "measure_battery_voltage" ->
  not_nullish (get_prop (values (parseUPSStatus body)) c) = true ->
  c ∈ capabilities (parseUPSStatus body).
Proof.
  intros Hc. rewrite parseUPSStatus_capabilities, parseUPSStatus_values.
  unfold get_prop.
  rewrite own_app_r by (destruct Hc as [->| ->]; reflexivity).
  intros Hn. apply list_elem_of_In.
  destruct (raw_filled body "ups.load") as [l|],
           (raw_filled body "battery.voltage") as [v|];
    destruct Hc as [->| ->]; simpl in Hn; try discriminate Hn.
  - apply (capabilities_of_number _ _ (parseInt l)); [| reflexivity].
    rewrite !in_app_iff. right. left. now left.
  - apply (capabilities_of_number _ _ (parseFloat v)); [| reflexivity].
    rewrite !in_app_iff. right. right. now left.
  - apply (capabilities_of_number _ _ (parseInt l)); [| reflexivity].
    rewrite !in_app_iff. right. left. now left.
  - apply (capabilities_of_number _ _ (parseFloat v)); [| reflexivity].
    rewrite !in_app_iff. right. right. now left.
Qed.

Lemma writes_are_value_writes (status : Status) (l : list string) :
  forallb is_value_write (writes status l) = true.
Proof.
  induction l as [|c rest IH]; [reflexivity |]. simpl.
  destruct (resolved status c); [exact IH | reflexivity].
Qed.

(** C7. Reconciling a second time with the same translated status, on
    the device a completed first reconciliation left behind and with
    every capability of the status exposed, completes, adds and removes
    nothing, and leaves the live capabilities and both store entries as
    they were: the only calls it makes are value writes. *)
Theorem C7_second_run_changes_nothing (body : gmap string string) (d d1 : Device) :
  let status := parseUPSStatus body in
  setCapabilities status d = (Normal tt, d1) ->
  (forall c, c ∈ capabilities status -> c ∈ live d1) ->
  let r := setCapabilities status d1 in
  fst r = Normal tt
  /\ live (snd r) = live d1
  /\ stored_capabilities (snd r) = stored_capabilities d1
  /\ first_run (snd r) = first_run d1
  /\ exists new, calls (snd r) = (calls d1 ++ new)%list
                 /\ forallb is_value_write new = true.
Proof.
  cbv zeta. intros E Hlive.
  destruct (setCapabilities_normal _ _ _ E) as [Hall Hf].
  pose proof (setCapabilities_stored (parseUPSStatus body) d) as Hs.
  rewrite E in Hs. simpl in Hs.
  assert (Hadd : added (parseUPSStatus body) d1 = []).
  { apply added_nil. intros c Hc Hv.
    apply Hlive. now apply optional_in_capabilities. }
  rewrite setCapabilities_reconciliation.
  unfold reconciliation, value_loop, after_adds. rewrite Hadd, Hs.
  apply loop_completion_normal in Hall.
  destruct (first_run d1) as [[|]|] eqn:Hf1; [congruence | |];
    simpl; rewrite !app_nil_r;
    (repeat split; try assumption);
    eexists; (split; [reflexivity | apply writes_are_value_writes]).
Qed.

Lemma C7_second_run_changes_nothing_witness :
  let d1 := snd (setCapabilities status_with_load device_before_first_run) in
  live d1 = ["measure_battery"; "alarm_status"; "measure_load"]
  /\ fst (setCapabilities status_with_load d1) = Normal tt
  /\ live (snd (setCapabilities status_with_load d1)) = live d1
  /\ stored_capabilities (snd (setCapabilities status_with_load d1)) =
       stored_capabilities d1.
Proof.
  cbv zeta.
  assert (Hlive : forall c, c ∈ capabilities status_with_load ->
                     c ∈ live (snd (setCapabilities status_with_load
                                      device_before_first_run))).
  { intros c Hc. apply list_elem_of_In. apply list_elem_of_In in Hc.
    vm_compute in Hc. vm_compute. tauto. }
  assert (Hfirst : setCapabilities status_with_load device_before_first_run =
                   (Normal tt,
                    snd (setCapabilities status_with_load device_before_first_run)))
    by (vm_compute; reflexivity).
  destruct (C7_second_run_changes_nothing body_with_load
              device_before_first_run
              (snd (setCapabilities status_with_load device_before_first_run))
              Hfirst Hlive) as (H1 & H2 & H3 & _).
  split; [reflexivity |]. split; [exact H1 |]. split; [exact H2 | exact H3].
Defined.

(** ** The poll tick *)

Lemma closes_app (cs1 cs2 : list call) :
  closes (cs1 ++ cs2) = (closes cs1 + closes cs2)%nat.
Proof. unfold closes. now rewrite List.filter_app, length_app. Qed.

Lemma marks_app (cs1 cs2 : list call) :
  marks (cs1 ++ cs2) = (marks cs1 ++ marks cs2)%list.
Proof. apply List.filter_app. Qed.

Lemma capability_calls_quiet (cs : list call) :
  forallb capability_call cs = true -> closes cs = 0%nat /\ marks cs = [].
Proof.
  induction cs as [|c cs IH]; [now split |].
  simpl. intros [Hc Hcs]%andb_true_iff. destruct (IH Hcs) as [H1 H2].
  unfold closes, marks in *. simpl.
  destruct c; try discriminate Hc; simpl; now split.
Qed.

Lemma forallb_map_capability_call (f : string -> call) (l : list string) :
  (forall c, capability_call (f c) = true) ->
  forallb capability_call (map f l) = true.
Proof.
  intros H. induction l as [|c l IH]; [reflexivity |].
  simpl. now rewrite H, IH.
Qed.

Lemma writes_capability_calls (status : Status) (l : list string) :
  forallb capability_call (writes status l) = true.
Proof.
  induction l as [|c rest IH]; [reflexivity |]. simpl.
  destruct (resolved status c); [exact IH | reflexivity].
Qed.

(** Whatever its outcome, the reconciler only appends calls of its own
    kind: additions, removals, store writes and value writes. *)
Lemma setCapabilities_calls (status : Status) (d : Device) :
  exists cs, calls (snd (setCapabilities status d)) = (calls d ++ cs)%list
             /\ forallb capability_call cs = true.
Proof.
  reconcile_cases status d; simpl; rewrite <- ?app_assoc;
    (eexists; split; [reflexivity |]);
    rewrite ?forallb_app, ?writes_capability_calls,
      ?(forallb_map_capability_call AddCapability _ (fun _ => eq_refl)),
      ?(forallb_map_capability_call RemoveCapability _ (fun _ => eq_refl));
    reflexivity.
Qed.

(** A tick whose fetch is rejected: the device is marked unavailable
    and the connection is closed. *)
Example tick_with_failed_fetch :
  getDeviceData
    {| start := Normal tt; SetUsername := Normal tt; SetPassword := Normal tt;
       GetUPSVars := Throw (Rejection "ERR UNKNOWN-UPS") |}
    device_battery_stored =
  (Normal tt,
   add_calls
     [ NutStart; NutSetUsername; NutSetPassword; NutGetUPSVars;
       SetUnavailable "Connection error: ERR UNKNOWN-UPS"; NutClose ]
     device_battery_stored).
Proof. reflexivity. Qed.

(** A tick in which an operation of the client rejects. *)
Ltac failed_tick :=
  simpl; rewrite !closes_app, !marks_app; unfold closes, marks; simpl;
  repeat split; try lia; try (eexists; reflexivity); try discriminate;
  intros ? [= <-]; now rewrite !app_nil_r.

(** C9. Every tick completes without throwing and closes the connection
    exactly once, as its last call. When connect, authenticate or fetch
    rejects with an error, the tick marks the device unavailable with
    the reason taken from that error and never marks it available; when
    they all succeed it makes exactly one availability mark: available
    when the reconciler completes, unavailable with the reason of the
    error when the reconciler throws. Rejections are error objects or
    strings, as the client's interface gives them. *)
Theorem C9_close_exactly_once (nut : Nut) (d : Device) :
  let r := getDeviceData nut d in
  fst r = Normal tt
  /\ closes (calls (snd r)) = S (closes (calls d))
  /\ (exists before, calls (snd r) = (before ++ [NutClose])%list)
  /\ (forall e, client_failure nut = Some e ->
        marks (calls (snd r)) =
        (marks (calls d)
           ++ [SetUnavailable ("Connection error: " ++ message_or_self e)])%list)
  /\ (forall res, client_failure nut = None -> GetUPSVars nut = Normal res ->
        let fetched :=
          record_call NutGetUPSVars
            (record_call NutSetPassword
               (record_call NutSetUsername (record_call NutStart d))) in
        marks (calls (snd r)) =
        (marks (calls d)
           ++ [match fst (setCapabilities (parseUPSStatus res) fetched) with
               | Normal _ => SetAvailable
               | Throw e =>
                   SetUnavailable ("Connection error: " ++ message_or_self e)
               end])%list).
Proof.
  cbv zeta.
  unfold getDeviceData, try_catch_finally, client_failure, nut_call, nut_close,
    setAvailable, setUnavailable, bind.
  destruct (start nut) as [[]|e1];
    [destruct (SetUsername nut) as [[]|e2];
       [destruct (SetPassword nut) as [[]|e3];
          [destruct (GetUPSVars nut) as [res|e4] | ] | ] | ].
  - remember (record_call NutGetUPSVars
                (record_call NutSetPassword
                   (record_call NutSetUsername (record_call NutStart d))))
      as d4 eqn:Ed4.
    destruct (setCapabilities_calls (parseUPSStatus res) d4) as (cs & Hcs & Hq).
    apply capability_calls_quiet in Hq as [Hc Hm].
    destruct (setCapabilities (parseUPSStatus res) d4) as [[[]|e] d5] eqn:E;
      simpl in Hcs; simpl; rewrite Hcs; subst d4; simpl;
      rewrite !closes_app, !marks_app, Hc, Hm; unfold closes, marks; simpl;
      (split; [reflexivity |]); (split; [lia |]);
      (split; [eexists; reflexivity |]);
      (split; [discriminate |]); intros res' _ [= <-];
      rewrite E; simpl; now rewrite ?app_nil_r.
  - failed_tick.
  - failed_tick.
  - failed_tick.
  - failed_tick.
Qed.

(** * Further properties of the translator *)

(** ** Blank strings *)

(** A string is blank exactly when each of its characters is white
    space; in particular the empty string is blank and a string with a
    digit or a letter is not. *)
Theorem blank_string_iff_white_space (s : string) :
  blank (VStr s) = true <->
  Forall (fun c => is_white_space c = true) (list_ascii_of_string s).
Proof.
  rewrite blank_string. induction s as [|c s IH]; simpl.
  - split; [constructor | reflexivity].
  - rewrite andb_true_iff, IH, Forall_cons. reflexivity.
Qed.

(** ** The capability list in closed form *)

Lemma if_filled_raw (parse : string -> jsval) (body : gmap string string)
    (k : string) :
  if_filled parse (body !! k) =
  match raw_filled body k with Some s => parse s | None => VNull end.
Proof.
  unfold if_filled, raw_filled. destruct (body !! k) as [s|]; [| reflexivity].
  now destruct (filled (VStr s)).
Qed.

Lemma capabilities_of_cons (key : string) (value : jsval)
    (l : list (string * jsval)) :
  capabilities_of ((key, value) :: l) =
  ((if filled value && negb (includes notCapabilities key) then
      match value with
      | VObj props =>
          flat_map
            (fun '(subKey, subValue) =>
               if filled subValue then [(key ++ "." ++ subKey)%string] else [])
            props
      | VBuiltin _ => []
      | _ => [key]
      end
    else []) ++ capabilities_of l)%list.
Proof. reflexivity. Qed.

Lemma reserved_entry (key : string) (value : jsval) (l : list (string * jsval)) :
  includes notCapabilities key = true ->
  capabilities_of ((key, value) :: l) = capabilities_of l.
Proof.
  intros H. rewrite capabilities_of_cons, H. simpl.
  now rewrite andb_false_r.
Qed.

Lemma number_entry (body : gmap string string) (key raw : string)
    (f : string -> number) (l : list (string * jsval)) :
  includes notCapabilities key = false ->
  capabilities_of ((key, if_filled (fun s => VNum (f s)) (body !! raw)) :: l) =
  (listed key (raw_filled body raw) ++ capabilities_of l)%list.
Proof.
  intros H. rewrite capabilities_of_cons, H, if_filled_raw.
  now destruct (raw_filled body raw).
Qed.

Lemma state_label_not_blank (word : string) :
  all_white_space (state_label word) = false.
Proof.
  unfold state_label. destruct (own STATE_TYPES word) as [label|] eqn:E.
  - apply own_Some_In in E.
    assert (H : forallb (fun kv => negb (all_white_space (snd kv)))
                  STATE_TYPES = true) by reflexivity.
    rewrite forallb_forall in H. apply negb_true_iff. exact (H _ E).
  - destruct (inherited word) eqn:Ei; [| reflexivity].
    unfold inherited in Ei. apply existsb_exists in Ei.
    destruct Ei as (k & Hk & ->%String.eqb_eq).
    assert (H : forallb (fun k => negb (all_white_space (builtin_text k)))
                  object_prototype_keys = true) by reflexivity.
    rewrite forallb_forall in H. apply negb_true_iff. exact (H _ Hk).
Qed.

(** The readable status of any raw status is filled. *)
Lemma readable_status_filled (status : string) :
  filled (VStr (readable_status status)) = true.
Proof.
  rewrite filled_string, readable_status_join.
  destruct (split " " status) as [|w ws] eqn:E;
    [now destruct (split_nonempty _ _ E) |].
  apply negb_true_iff. simpl.
  destruct (map state_label ws);
    [| rewrite all_white_space_app]; now rewrite state_label_not_blank.
Qed.

Lemma voltage_entry (body : gmap string string) (raw1 raw2 : string)
    (f g : string -> number) (l : list (string * jsval)) :
  capabilities_of
    (("measure_voltage",
      VObj [ ("input", if_filled (fun s => VNum (f s)) (body !! raw1));
             ("output", if_filled (fun s => VNum (g s)) (body !! raw2)) ]) :: l) =
  (listed "measure_voltage.input" (raw_filled body raw1)
   ++ listed "measure_voltage.output" (raw_filled body raw2)
   ++ capabilities_of l)%list.
Proof.
  rewrite capabilities_of_cons, !if_filled_raw.
  now destruct (raw_filled body raw1), (raw_filled body raw2).
Qed.

Lemma status_entry (body : gmap string string) (raw : string)
    (l : list (string * jsval)) :
  capabilities_of
    (("status",
      match raw_filled body raw with
      | Some s => VStr (readable_status s)
      | None => VNull
      end) :: l) =
  (listed "status" (raw_filled body raw) ++ capabilities_of l)%list.
Proof.
  rewrite capabilities_of_cons.
  destruct (raw_filled body raw) as [s|]; [| reflexivity].
  now rewrite readable_status_filled.
Qed.

Lemma optional_entry (parse : string -> number) (name : string)
    (raw : option string) :
  includes notCapabilities name = false ->
  capabilities_of (optional_value parse name raw) = listed name raw.
Proof.
  intros H. destruct raw as [s|]; [| reflexivity].
  unfold optional_value. rewrite capabilities_of_cons, H. reflexivity.
Qed.

Lemma capabilities_of_app (l1 l2 : list (string * jsval)) :
  capabilities_of (l1 ++ l2) = (capabilities_of l1 ++ capabilities_of l2)%list.
Proof. apply flat_map_app. Qed.

Lemma capabilities_closed_form (body : gmap string string) :
  capabilities (parseUPSStatus body) =
  (listed "measure_battery" (raw_filled body "battery.charge")
   ++ listed "measure_battery_runtime" (raw_filled body "battery.runtime")
   ++ listed "measure_temperature" (raw_filled body "battery.temperature")
   ++ listed "measure_voltage.input" (raw_filled body "input.voltage")
   ++ listed "measure_voltage.output" (raw_filled body "output.voltage")
   ++ listed "status" (raw_filled body "ups.status")
   ++ ["alarm_status"]
   ++ listed "measure_load" (raw_filled body "ups.load")
   ++ listed "measure_battery_voltage" (raw_filled body "battery.voltage"))%list.
Proof.
  rewrite parseUPSStatus_capabilities, parseUPSStatus_values.
  rewrite !capabilities_of_app, !optional_entry by reflexivity.
  unfold fixed_values.
  rewrite reserved_entry by reflexivity.
  rewrite !number_entry by reflexivity.
  rewrite reserved_entry by reflexivity.
  rewrite voltage_entry, status_entry.
  rewrite <- !app_assoc. reflexivity.
Qed.

Lemma elem_of_listed (x name : string) (raw : option string) :
  x ∈ listed name raw <-> x = name /\ is_Some raw.
Proof.
  destruct raw as [s|]; simpl.
  - rewrite list_elem_of_singleton. split; [intros ->; eauto | tauto].
  - rewrite elem_of_nil. split; [tauto | intros [_ [s Hs]]; discriminate].
Qed.

Lemma listed_sublist (name : string) (raw : option string) :
  listed name raw `sublist_of` [name].
Proof. destruct raw; [reflexivity | apply sublist_nil_l]. Qed.

Lemma raw_filled_is_Some (body : gmap string string) (k : string) :
  is_Some (raw_filled body k) <->
  exists s, body !! k = Some s /\ filled (VStr s) = true.
Proof.
  unfold raw_filled. destruct (body !! k) as [s|].
  - destruct (filled (VStr s)) eqn:E.
    + split; [intros _; now exists s | eauto].
    + split; [intros [x Hx]; discriminate |].
      intros (s' & [= <-] & H). congruence.
  - split; [intros [x Hx]; discriminate | intros (s' & [=] & _)].
Qed.

Lemma translator_capabilities_NoDup : NoDup translator_capabilities.
Proof. compute_done. Qed.

Lemma capabilities_sublist (body : gmap string string) :
  capabilities (parseUPSStatus body) `sublist_of` translator_capabilities.
Proof.
  rewrite capabilities_closed_form.
  change translator_capabilities with
    (["measure_battery"] ++ ["measure_battery_runtime"]
     ++ ["measure_temperature"] ++ ["measure_voltage.input"]
     ++ ["measure_voltage.output"] ++ ["status"] ++ ["alarm_status"]
     ++ ["measure_load"] ++ ["measure_battery_voltage"])%list.
  repeat (apply sublist_app; [apply listed_sublist || reflexivity |]).
  apply listed_sublist.
Qed.

(** The capability list of every translated status lists the names in
    the order of the values object, each at most once, and never holds
    [name] or [id]. *)
Theorem capabilities_order_and_uniqueness (body : gmap string string) :
  capabilities (parseUPSStatus body) `sublist_of` translator_capabilities
  /\ NoDup (capabilities (parseUPSStatus body))
  /\ ("name" ∉ capabilities (parseUPSStatus body))
  /\ ("id" ∉ capabilities (parseUPSStatus body)).
Proof.
  pose proof (capabilities_sublist body) as Hsub.
  split; [exact Hsub |]. split.
  - exact (sublist_NoDup _ _ translator_capabilities_NoDup Hsub).
  - split; intros H; apply (elem_of_sublist _ _ _ H) in Hsub;
      apply list_elem_of_In in Hsub; simpl in Hsub;
      repeat (destruct Hsub as [Hsub|Hsub]; [discriminate Hsub |]);
      exact Hsub.
Qed.

(** A capability with a raw variable behind it is listed exactly when
    that variable is present and filled; [alarm_status] is listed for
    every raw map, the empty one included. *)
Theorem capability_listed_iff_raw_filled (body : gmap string string) :
  (forall cap raw, In (cap, raw) capability_sources ->
     (cap ∈ capabilities (parseUPSStatus body) <->
      exists s, body !! raw = Some s /\ filled (VStr s) = true))
  /\ "alarm_status" ∈ capabilities (parseUPSStatus body).
Proof.
  rewrite capabilities_closed_form. split.
  - intros cap raw Hin. rewrite <- raw_filled_is_Some.
    rewrite !elem_of_app, !elem_of_listed, list_elem_of_singleton.
    simpl in Hin.
    repeat (destruct Hin as [[= <- <-]|Hin];
            [split;
             [ intros H; repeat (destruct H as [H|H]);
               first [ discriminate H
                     | destruct H as [H Hs]; first [discriminate H | exact Hs] ]
             | intros H;
               repeat (first [ left; split; [reflexivity | exact H]
                             | right
                             | split; [reflexivity | exact H] ]) ]
            |]).
    destruct Hin.
  - rewrite !elem_of_app, list_elem_of_singleton. tauto.
Qed.

(** ** From the translator to the reconciler *)

Lemma two_part_resolved (status : Status) (c parent sub : string)
    (inner : list (string * jsval)) :
  split "." c = [parent; sub] ->
  get_prop (values status) parent = VObj inner ->
  resolved status c = Some (Value (get_prop inner sub))
  /\ written_name c = parent ++ "." ++ sub.
Proof.
  intros Hs Hp. unfold resolved, written_name. rewrite Hs. simpl.
  now rewrite Hp.
Qed.

Lemma get_optional (body : gmap string string) (k : string) :
  own (fixed_values body) k = None ->
  get_prop (values (parseUPSStatus body)) k =
  get_prop
    (optional_value parseInt "measure_load" (raw_filled body "ups.load")
     ++ optional_value parseFloat "measure_battery_voltage"
          (raw_filled body "battery.voltage")) k.
Proof.
  intros H. unfold get_prop. now rewrite parseUPSStatus_values, own_app_r.
Qed.

(** Every capability that a translated status lists can be read by the
    value loop of the reconciler, has a filled value there, and is
    written under its own name. *)
Theorem translated_capabilities_resolve (body : gmap string string) (c : string) :
  c ∈ capabilities (parseUPSStatus body) ->
  exists v, resolved (parseUPSStatus body) c = Some (Value v)
            /\ filled v = true
            /\ written_name c = c.
Proof.
  rewrite capabilities_closed_form.
  rewrite !elem_of_app, !elem_of_listed, list_elem_of_singleton.
  intros H.
  repeat (destruct H as [H|H]);
    match type of H with
    | _ /\ _ => destruct H as [-> [s Hs]]
    | _ => subst c
    end.
  - destruct (dot_free_resolved (parseUPSStatus body) "measure_battery" eq_refl)
      as [Hr Hn].
    eexists. split; [exact Hr | split; [| exact Hn]].
    now rewrite (get_fixed body "measure_battery" _ eq_refl), if_filled_raw, Hs.
  - destruct (dot_free_resolved (parseUPSStatus body) "measure_battery_runtime"
                eq_refl) as [Hr Hn].
    eexists. split; [exact Hr | split; [| exact Hn]].
    now rewrite (get_fixed body "measure_battery_runtime" _ eq_refl),
      if_filled_raw, Hs.
  - destruct (dot_free_resolved (parseUPSStatus body) "measure_temperature"
                eq_refl) as [Hr Hn].
    eexists. split; [exact Hr | split; [| exact Hn]].
    now rewrite (get_fixed body "measure_temperature" _ eq_refl),
      if_filled_raw, Hs.
  - destruct (two_part_resolved (parseUPSStatus body) "measure_voltage.input"
                "measure_voltage" "input" _ eq_refl
                (get_fixed body "measure_voltage" _ eq_refl)) as [Hr Hn].
    eexists. split; [exact Hr | split; [| exact Hn]].
    unfold get_prop. simpl. now rewrite if_filled_raw, Hs.
  - destruct (two_part_resolved (parseUPSStatus body) "measure_voltage.output"
                "measure_voltage" "output" _ eq_refl
                (get_fixed body "measure_voltage" _ eq_refl)) as [Hr Hn].
    eexists. split; [exact Hr | split; [| exact Hn]].
    unfold get_prop. simpl. now rewrite if_filled_raw, Hs.
  - destruct (dot_free_resolved (parseUPSStatus body) "status" eq_refl)
      as [Hr Hn].
    eexists. split; [exact Hr | split; [| exact Hn]].
    rewrite (get_fixed body "status" _ eq_refl), Hs.
    apply readable_status_filled.
  - destruct (dot_free_resolved (parseUPSStatus body) "alarm_status" eq_refl)
      as [Hr Hn].
    eexists. split; [exact Hr | split; [| exact Hn]].
    now rewrite (get_fixed body "alarm_status" _ eq_refl).
  - destruct (dot_free_resolved (parseUPSStatus body) "measure_load" eq_refl)
      as [Hr Hn].
    eexists. split; [exact Hr | split; [| exact Hn]].
    now rewrite (get_optional body "measure_load" eq_refl), Hs.
  - destruct (dot_free_resolved (parseUPSStatus body) "measure_battery_voltage"
                eq_refl) as [Hr Hn].
    eexists. split; [exact Hr | split; [| exact Hn]].
    rewrite (get_optional body "measure_battery_voltage" eq_refl), Hs.
    now destruct (raw_filled body "ups.load").
Qed.

Lemma translated_capabilities_resolve_witness :
  exists v, resolved status_with_load "measure_load" = Some (Value v)
            /\ filled v = true
            /\ written_name "measure_load" = "measure_load".
Proof.
  apply (translated_capabilities_resolve body_with_load "measure_load").
  apply list_elem_of_In. vm_compute. tauto.
Defined.

(** ** Decimal telemetry *)

Lemma digits_value_from_acc (d : Decimal.uint) (acc : positive) :
  digits_value_from (Npos acc) (NilEmpty.string_of_uint d) =
  Npos (Pos.of_uint_acc d acc).
Proof.
  revert acc. induction d as [|d IH|d IH|d IH|d IH|d IH|d IH|d IH|d IH|d IH|d IH];
    intros acc; simpl; [reflexivity | ..];
    rewrite <- IH; f_equal; unfold digit_value; simpl N_of_ascii; lia.
Qed.

Lemma digits_value_of_uint (d : Decimal.uint) :
  digits_value (NilEmpty.string_of_uint d) = Pos.of_uint d.
Proof.
  unfold digits_value.
  induction d as [|d IH|d IH|d IH|d IH|d IH|d IH|d IH|d IH|d IH|d IH];
    simpl; [reflexivity | exact IH | ..];
    rewrite <- digits_value_from_acc; reflexivity.
Qed.

Lemma span_digits_of_uint (d : Decimal.uint) (rest : string) :
  starts_with_digit rest = false ->
  span_digits (NilEmpty.string_of_uint d ++ rest) =
  (NilEmpty.string_of_uint d, rest).
Proof.
  intros Hr.
  induction d as [|d IH|d IH|d IH|d IH|d IH|d IH|d IH|d IH|d IH|d IH];
    simpl; rewrite ?append_cons; simpl; rewrite ?IH; try reflexivity.
  destruct rest as [|c rest]; [reflexivity |].
  simpl in *. now rewrite Hr.
Qed.

(** The digits of a number begin with a digit. *)
Lemma decimal_head (n : N) :
  exists c tail, decimal n = String c tail /\ is_digit c = true.
Proof.
  unfold decimal. destruct (N.to_uint n) as [|d|d|d|d|d|d|d|d|d|d] eqn:E;
    simpl; eauto.
  exfalso. pose proof (DecimalN.Unsigned.of_to n) as H. rewrite E in H.
  simpl in H. subst n. discriminate E.
Qed.

Lemma digit_plain (c : ascii) :
  is_digit c = true ->
  is_white_space c = false /\ c <> "+"%char /\ c <> "-"%char.
Proof.
  destruct c as [[] [] [] [] [] [] [] []]; try discriminate; intros _;
    repeat split; discriminate.
Qed.

(** [parseInt] reads a number back from its decimal digits, whatever
    follows them, as long as that does not begin with a digit. *)
Lemma parseInt_decimal (n : N) (rest : string) :
  starts_with_digit rest = false ->
  parseInt (decimal n ++ rest) = Decimal false n 0
  /\ filled (VStr (decimal n ++ rest)) = true.
Proof.
  intros Hr. destruct (decimal_head n) as (c & tail & E & Hc).
  destruct (digit_plain c Hc) as (Hw & Hp & Hm).
  split.
  - unfold parseInt.
    assert (Ht : trimStart (decimal n ++ rest) = decimal n ++ rest).
    { rewrite E, append_cons. simpl. now rewrite Hw. }
    assert (Hs : strip_sign (decimal n ++ rest) = (false, decimal n ++ rest)).
    { rewrite E, append_cons. unfold strip_sign.
      destruct c as [[] [] [] [] [] [] [] []]; try reflexivity; congruence. }
    rewrite Ht, Hs. unfold decimal at 1. rewrite span_digits_of_uint by assumption.
    fold (decimal n). rewrite E. rewrite <- E. unfold decimal.
    rewrite digits_value_of_uint.
    change (Pos.of_uint (N.to_uint n)) with (N.of_uint (N.to_uint n)).
    now rewrite DecimalN.Unsigned.of_to.
  - rewrite filled_string, E, append_cons. simpl. now rewrite Hw.
Qed.

(** A raw [battery.charge] that holds the decimal digits of a number,
    followed by anything that does not begin with a digit, translates to
    the double nearest to that number, which holds the number itself up
    to [2^53 - 1]; [measure_battery] is then a capability. *)
Theorem battery_charge_round_trip (body : gmap string string) (n : N)
    (rest : string) :
  body !! "battery.charge" = Some (decimal n ++ rest) ->
  starts_with_digit rest = false ->
  exists x,
    get_prop (values (parseUPSStatus body)) "measure_battery" = VNum x
    /\ x = Decimal false n 0
    /\ ((n <= 9007199254740991)%N -> integer_value x = Some (Z.of_N n))
    /\ "measure_battery" ∈ capabilities (parseUPSStatus body).
Proof.
  intros Hb Hr. destruct (parseInt_decimal n rest Hr) as [Hp Hf].
  assert (Hraw : raw_filled body "battery.charge" = Some (decimal n ++ rest)).
  { unfold raw_filled. now rewrite Hb, Hf. }
  exists (Decimal false n 0). repeat split.
  - now rewrite (get_fixed body "measure_battery" _ eq_refl), if_filled_raw,
      Hraw, Hp.
  - intros Hn. now rewrite Decimal_safe_integer.
  - rewrite capabilities_closed_form, Hraw. left.
Qed.

Lemma battery_charge_round_trip_witness :
  exists x,
    get_prop (values (parseUPSStatus {[ "battery.charge" := "87 %" ]}))
      "measure_battery" = VNum x
    /\ integer_value x = Some 87%Z.
Proof.
  assert (Hb : ({[ "battery.charge" := "87 %" ]} : gmap string string)
                 !! "battery.charge" = Some (decimal 87 ++ " %"))
    by reflexivity.
  destruct (battery_charge_round_trip _ 87 " %" Hb eq_refl)
    as (x & Hx & _ & Hv & _).
  exists x. split; [exact Hx | apply Hv; discriminate].
Defined.

(** * Further properties of the reconciler *)

Lemma loop_completion_throw (status : Status) (l : list string) (e : exn) :
  loop_completion status l = Throw e ->
  exists c, c ∈ l /\ resolved status c = None
            /\ e = type_error (List.last (split "." c) "").
Proof.
  induction l as [|c rest IH]; simpl; [discriminate |].
  destruct (resolved status c) eqn:E.
  - intros H. destruct (IH H) as (c' & Hin & Hr & He).
    exists c'. split; [now right | now split].
  - intros [= <-]. exists c. split; [left | now split].
Qed.

(** [setCapabilities] completes exactly when every name of its list can
    be read and it is not a first run that meets an unset stored list
    with something exposed (after the dynamic additions). What it throws
    otherwise is the [TypeError] of reading [includes] off the unset
    list, or that of reading the sub-field of a missing parent. *)
Theorem setCapabilities_completes_iff (status : Status) (d : Device) :
  (fst (setCapabilities status d) = Normal tt <->
     all_resolved status (capabilityList (stored_capabilities d) status) = true
     /\ (first_run d = Some true -> stored_capabilities d = None ->
         live d = [] /\ added status d = []))
  /\ (forall e, fst (setCapabilities status d) = Throw e ->
        e = type_error "includes"
        \/ exists c, c ∈ capabilityList (stored_capabilities d) status
                     /\ resolved status c = None
                     /\ e = type_error (List.last (split "." c) "")).
Proof.
  reconcile_cases status d; simpl; rewrite ?loop_completion_normal;
    (split;
     [ try (split; [intros H; split; [exact H | intros; congruence]
                   | intros [H _]; exact H])
     | try (intros e He; right; now apply loop_completion_throw) ]).
  - split; [| tauto]. intros H. split; [exact H |]. intros _ _.
    simpl in Hlive. now apply app_eq_nil in Hlive.
  - split; [discriminate |]. intros [_ H].
    destruct (H eq_refl eq_refl) as [H1 H2].
    simpl in Hlive. rewrite H1, H2 in Hlive. discriminate Hlive.
  - intros e [= <-]. now left.
Qed.

Lemma writes_app_unreadable (status : Status) (l1 l2 : list string) (c : string) :
  all_resolved status l1 = true ->
  resolved status c = None ->
  writes status (l1 ++ c :: l2) = writes status l1
  /\ loop_completion status (l1 ++ c :: l2) =
     Throw (type_error (List.last (split "." c) "")).
Proof.
  intros Hall Hc. induction l1 as [|x l1 IH]; simpl.
  - now rewrite Hc.
  - simpl in Hall. apply andb_true_iff in Hall as [Hx Hl].
    destruct (resolved status x); [| discriminate].
    destruct (IH Hl) as [-> ->]. now split.
Qed.

(** A name whose parent is missing stops the value loop: the values of
    the names before it are written, [setCapabilities] throws the
    [TypeError] of reading its sub-field, and no later name is
    written. *)
Theorem value_loop_stops_at_unreadable_name (status : Status) (d : Device)
    (l1 l2 : list string) (c : string) :
  capabilityList (stored_capabilities d) status = (l1 ++ c :: l2)%list ->
  all_resolved status l1 = true ->
  resolved status c = None ->
  (first_run d = Some true -> stored_capabilities d <> None) ->
  fst (setCapabilities status d) = Throw (type_error (List.last (split "." c) ""))
  /\ written (calls (snd (setCapabilities status d))) =
     (written (calls d) ++ map written_name l1)%list.
Proof.
  intros Hl Hall Hc Hfs.
  destruct (writes_app_unreadable status l1 l2 c Hall Hc) as [Hw Ht].
  pose proof (written_writes status l1 Hall) as Hwr.
  revert Hl Hfs.
  reconcile_cases status d; intros Hl Hfs;
    try (now destruct (Hfs eq_refl));
    rewrite Hl, Hw, Ht; simpl; (split; [reflexivity |]);
    autorewrite with calls; simpl; autorewrite with calls;
    now rewrite Hwr.
Qed.

Lemma value_loop_stops_at_unreadable_name_witness :
  let d := {| live := ["measure_battery"; "alarm_status"];
              first_run := Some false;
              stored_capabilities := Some ["measure_battery"; "x.y"; "alarm_status"];
              calls := [] |} in
  fst (setCapabilities status_plain d) = Throw (type_error "y")
  /\ written (calls (snd (setCapabilities status_plain d))) = ["measure_battery"].
Proof.
  cbv zeta.
  apply (value_loop_stops_at_unreadable_name status_plain
           {| live := ["measure_battery"; "alarm_status"];
              first_run := Some false;
              stored_capabilities := Some ["measure_battery"; "x.y"; "alarm_status"];
              calls := [] |}
           ["measure_battery"] ["alarm_status"; "measure_voltage.input"] "x.y");
    [reflexivity | reflexivity | reflexivity | discriminate].
Defined.

Lemma to_add_NoDup (status : Status) (c : string) (exposed : list string) :
  NoDup exposed -> NoDup (exposed ++ to_add status c exposed).
Proof.
  intros H. unfold to_add.
  destruct (not_nullish (get_prop (values status) c)); simpl;
    [| now rewrite app_nil_r].
  destruct (includes exposed c) eqn:E; simpl; [now rewrite app_nil_r |].
  apply includes_not_elem_of in E. apply NoDup_app.
  split; [assumption |]. split; [| apply NoDup_singleton].
  intros x Hx ->%list_elem_of_singleton. contradiction.
Qed.

Lemma after_adds_NoDup (status : Status) (d : Device) :
  NoDup (live d) -> NoDup (live (after_adds status d)).
Proof.
  intros H. simpl. unfold added. rewrite app_assoc.
  now apply to_add_NoDup, to_add_NoDup.
Qed.

Lemma remove_all_NoDup (rs exposed : list string) :
  NoDup exposed -> NoDup (remove_all rs exposed).
Proof.
  unfold remove_all. revert exposed.
  induction rs as [|r rs IH]; intros exposed H; simpl; [assumption |].
  apply IH. now apply NoDup_filter.
Qed.

(** The reconciler never exposes a capability twice: a live list without
    duplicates has none after [setCapabilities], however it ends. *)
Theorem live_NoDup_preserved (status : Status) (d : Device) :
  NoDup (live d) -> NoDup (live (snd (setCapabilities status d))).
Proof.
  intros H. apply (after_adds_NoDup status) in H.
  reconcile_cases status d; cbn [snd live add_calls with_first_run with_removed];
    rewrite ?Hlive; try assumption.
  now apply remove_all_NoDup.
Qed.

Lemma live_NoDup_preserved_witness :
  NoDup (live (snd (setCapabilities status_with_load device_before_first_run))).
Proof.
  apply (live_NoDup_preserved status_with_load device_before_first_run).
  compute_done.
Defined.

Lemma elem_of_to_add (status : Status) (c x : string) (exposed : list string) :
  x ∈ to_add status c exposed <->
  x = c /\ not_nullish (get_prop (values status) c) = true /\ c ∉ exposed.
Proof.
  unfold to_add. rewrite <- includes_not_elem_of.
  destruct (not_nullish (get_prop (values status) c)); simpl.
  - destruct (includes exposed c); simpl.
    + rewrite elem_of_nil. split; [tauto | intros (_ & _ & H); discriminate].
    + rewrite list_elem_of_singleton. tauto.
  - rewrite elem_of_nil. split; [tauto | intros (_ & H & _); discriminate].
Qed.

Lemma elem_of_added (status : Status) (d : Device) (x : string) :
  x ∈ added status d <->
  (x = "measure_load" \/ x = "measure_battery_voltage")
  /\ not_nullish (get_prop (values status) x) = true
  /\ x ∉ live d.
Proof.
  unfold added. rewrite elem_of_app, !elem_of_to_add, not_elem_of_app,
    elem_of_to_add.
  split.
  - intros [(-> & H1 & H2)|(-> & H1 & H2 & _)]; tauto.
  - intros ([-> | ->] & H1 & H2); [left; tauto |].
    right. repeat split; try assumption. intros [[=] _].
Qed.

(** The live list changes in two ways only: the reconciler adds nothing
    but [measure_load] and [measure_battery_voltage], and it removes
    nothing unless the [first_run] flag is true. *)
Theorem live_changes_bounded (status : Status) (d : Device) :
  let d' := snd (setCapabilities status d) in
  (forall c, c ∈ live d' ->
     c ∈ live d \/ c = "measure_load" \/ c = "measure_battery_voltage")
  /\ (first_run d <> Some true -> forall c, c ∈ live d -> c ∈ live d').
Proof.
  cbv zeta.
  assert (Hadd : forall c, c ∈ live (after_adds status d) ->
                   c ∈ live d \/ c = "measure_load"
                   \/ c = "measure_battery_voltage").
  { intros c. simpl. rewrite elem_of_app, elem_of_added. tauto. }
  reconcile_cases status d; cbn [snd live add_calls with_first_run with_removed];
    (split; [| intros Hf c Hc; try congruence; now apply after_adds_live]);
    rewrite ?Hlive; try exact Hadd.
  intros c [Hc _]%elem_of_remove_all. now apply Hadd.
Qed.

Lemma setCapabilities_new_calls (status : Status) (d : Device) :
  exists rest,
    new_calls d (snd (setCapabilities status d)) =
      (map AddCapability (added status d) ++ rest)%list
    /\ forall c, AddCapability c ∉ rest.
Proof.
  assert (Hw : forall c l, AddCapability c ∉ writes status l).
  { intros c l. induction l as [|x l IH]; simpl; [apply not_elem_of_nil |].
    destruct (resolved status x); [| apply not_elem_of_nil].
    rewrite not_elem_of_cons. split; [discriminate | exact IH]. }
  assert (Hr : forall c l, AddCapability c ∉ map RemoveCapability l).
  { intros c l. induction l as [|x l IH]; simpl; [apply not_elem_of_nil |].
    rewrite not_elem_of_cons. split; [discriminate | exact IH]. }
  reconcile_cases status d; cbn [snd];
    eexists;
    (split;
     [ apply new_calls_add_calls; simpl; rewrite <- ?app_assoc;
       first [ reflexivity
             | exact (eq_sym (f_equal (app (calls d)) (app_nil_r _))) ] |]);
    intros c; rewrite ?not_elem_of_app, ?not_elem_of_cons;
    repeat split; try apply Hw; try apply Hr; try apply not_elem_of_nil;
    discriminate.
Qed.

(** Dynamic discovery adds a capability exactly when it is one of the two
    optional names, the status has a value for it, and the live device
    does not expose it yet; so nothing is ever added twice. *)
Theorem dynamic_addition_iff (status : Status) (d : Device) (c : string) :
  AddCapability c ∈ new_calls d (snd (setCapabilities status d)) <->
  (c = "measure_load" \/ c = "measure_battery_voltage")
  /\ not_nullish (get_prop (values status) c) = true
  /\ c ∉ live d.
Proof.
  destruct (setCapabilities_new_calls status d) as (rest & -> & Hrest).
  rewrite <- elem_of_added, elem_of_app. split.
  - intros [H|H]; [| now destruct (Hrest c)].
    apply list_elem_of_In, in_map_iff in H. destruct H as (x & [= ->] & H).
    now apply list_elem_of_In.
  - intros H. left. apply list_elem_of_In, in_map. now apply list_elem_of_In.
Qed.

Lemma translator_capability_resolved (body : gmap string string) (c : string) :
  c ∈ translator_capabilities ->
  is_Some (resolved (parseUPSStatus body) c).
Proof.
  intros H. apply list_elem_of_In in H. simpl in H.
  repeat (destruct H as [<-|H]);
    try match goal with
        | |- is_Some (resolved _ ?k) =>
            destruct (dot_free_resolved (parseUPSStatus body) k eq_refl)
              as [-> _]; eauto; fail
        end.
  - destruct (two_part_resolved (parseUPSStatus body) "measure_voltage.input"
                "measure_voltage" "input" _ eq_refl
                (get_fixed body "measure_voltage" _ eq_refl)) as [-> _]. eauto.
  - destruct (two_part_resolved (parseUPSStatus body) "measure_voltage.output"
                "measure_voltage" "output" _ eq_refl
                (get_fixed body "measure_voltage" _ eq_refl)) as [-> _]. eauto.
  - destruct H.
Qed.

Lemma translated_all_resolved (body : gmap string string)
    (stored : option (list string)) :
  (forall known, stored = Some known ->
     forall c, c ∈ known -> c ∈ translator_capabilities) ->
  all_resolved (parseUPSStatus body)
    (capabilityList stored (parseUPSStatus body)) = true.
Proof.
  intros Hk. apply forallb_forall. intros c Hc.
  apply list_elem_of_In in Hc.
  assert (Hin : c ∈ translator_capabilities).
  { assert (Hcap : forall x, x ∈ capabilities (parseUPSStatus body) ->
                             x ∈ translator_capabilities).
    { intros x Hx. exact (elem_of_sublist _ _ _ Hx (capabilities_sublist body)). }
    unfold capabilityList in Hc. destruct stored as [known|].
    - apply array_from_set_spec, elem_of_app in Hc as [Hc|Hc];
        [now apply (Hk known eq_refl) | now apply Hcap].
    - now apply Hcap. }
  destruct (translator_capability_resolved body c Hin) as [a ->]. reflexivity.
Qed.

(** A translated status always reconciles: when the stored list is unset
    or holds only names the translator produces, and the run is not a
    first run without a stored list, [setCapabilities] completes. *)
Theorem translated_status_reconciles (body : gmap string string) (d : Device) :
  (first_run d = Some true -> stored_capabilities d <> None) ->
  (forall known, stored_capabilities d = Some known ->
     forall c, c ∈ known -> c ∈ translator_capabilities) ->
  fst (setCapabilities (parseUPSStatus body) d) = Normal tt.
Proof.
  intros Hfs Hk.
  exact (proj1 (setCapabilities_completes (parseUPSStatus body) d Hfs
                  (translated_all_resolved body _ Hk))).
Qed.

Lemma translated_status_reconciles_witness :
  fst (setCapabilities status_without_load device_load_stored) = Normal tt.
Proof.
  apply (translated_status_reconciles
           (list_to_map [("battery.charge", "80")]) device_load_stored).
  - discriminate.
  - intros known [= <-] c Hc. apply list_elem_of_In in Hc.
    apply list_elem_of_In. simpl in *. tauto.
Defined.

(** * Further properties of the poll tick *)

(** A tick and its closed form agree, and a tick never throws. *)
Lemma getDeviceData_tick (nut : Nut) (d : Device) :
  getDeviceData nut d = (Normal tt, tick nut d).
Proof.
  assert (Hfetched :
    record_call NutGetUPSVars
      (record_call NutSetPassword
         (record_call NutSetUsername (record_call NutStart d))) =
    add_calls [NutStart; NutSetUsername; NutSetPassword; NutGetUPSVars] d).
  { unfold record_call, add_calls. simpl. now rewrite <- !app_assoc. }
  unfold getDeviceData, try_catch_finally, tick, client_failure, attempted,
    unavailable, nut_call, nut_close, setAvailable, setUnavailable, bind.
  destruct (start nut) as [[]|e1];
    [destruct (SetUsername nut) as [[]|e2];
       [destruct (SetPassword nut) as [[]|e3];
          [destruct (GetUPSVars nut) as [res|e4] | ] | ] | ];
    try (simpl; f_equal; unfold record_call, add_calls; simpl;
         now rewrite <- !app_assoc).
  rewrite Hfetched. cbv zeta.
  destruct (setCapabilities (parseUPSStatus res) _) as [[[]|e] d5]; simpl;
    f_equal; unfold record_call, add_calls; simpl; now rewrite <- app_assoc.
Qed.


(** The calls of a tick, in order. *)
Lemma tick_calls (nut : Nut) (d : Device) :
  exists cs mark,
    calls (tick nut d) = (calls d ++ attempted nut ++ cs ++ [mark; NutClose])%list
    /\ forallb capability_call cs = true
    /\ (mark = SetAvailable \/ exists e, mark = unavailable e)
    /\ (is_Some (client_failure nut) -> cs = []).
Proof.
  unfold tick. destruct (client_failure nut) as [e|] eqn:Ef.
  - exists [], (unavailable e). simpl. rewrite <- app_assoc.
    repeat split; eauto.
  - destruct (GetUPSVars nut) as [res|e] eqn:Eg.
    + cbv zeta.
      destruct (setCapabilities_calls (parseUPSStatus res)
                  (add_calls (attempted nut) d)) as (cs & Hcs & Hq).
      eexists cs, _. simpl. rewrite Hcs. simpl. rewrite <- !app_assoc.
      split; [reflexivity |]. split; [exact Hq |]. split.
      * destruct (fst (setCapabilities _ _)); eauto.
      * intros [x Hx]. discriminate Hx.
    + exfalso. unfold client_failure in Ef. rewrite Eg in Ef.
      destruct (start nut) as [[]|], (SetUsername nut) as [[]|],
        (SetPassword nut) as [[]|]; discriminate Ef.
Qed.

(** A tick calls the client in protocol order and stops at the first
    step that rejects; it reconciles only after a fetch that succeeded;
    it then leaves exactly one availability mark and closes the
    connection as its last call. *)
Theorem tick_call_sequence (nut : Nut) (d : Device) :
  exists cs mark,
    new_calls d (snd (getDeviceData nut d)) =
      (attempted nut ++ cs ++ [mark; NutClose])%list
    /\ forallb capability_call cs = true
    /\ (mark = SetAvailable \/ exists e, mark = unavailable e)
    /\ (is_Some (client_failure nut) -> cs = []).
Proof.
  rewrite getDeviceData_tick. simpl.
  destruct (tick_calls nut d) as (cs & mark & Hc & H).
  exists cs, mark. split; [now apply new_calls_add_calls | exact H].
Qed.




Lemma attempted_counts (nut : Nut) :
  starts (attempted nut) = 1%nat /\ closes (attempted nut) = 0%nat
  /\ marks (attempted nut) = [].
Proof.
  unfold attempted.
  destruct (start nut), (SetUsername nut), (SetPassword nut); now repeat split.
Qed.



(** When connect, authentication and fetch succeed, a device whose
    stored list is unset or holds only names the translator produces
    (and that is not on a first run without a stored list) is marked
    available: the reconciliation of the fetched telemetry completes. *)
Theorem successful_tick_marks_available (nut : Nut) (d : Device)
    (res : gmap string string) :
  client_failure nut = None ->
  GetUPSVars nut = Normal res ->
  (first_run d = Some true -> stored_capabilities d <> None) ->
  (forall known, stored_capabilities d = Some known ->
     forall c, c ∈ known -> c ∈ translator_capabilities) ->
  marks (new_calls d (snd (getDeviceData nut d))) = [SetAvailable].
Proof.
  intros Hf Hg Hfs Hk. rewrite getDeviceData_tick. simpl.
  unfold tick. rewrite Hf, Hg. cbv zeta.
  pose proof (setCapabilities_completes (parseUPSStatus res)
                (add_calls (attempted nut) d) Hfs
                (translated_all_resolved res _ Hk)) as [Hn _].
  rewrite Hn.
  destruct (setCapabilities_calls (parseUPSStatus res)
              (add_calls (attempted nut) d)) as (cs & Hcs & Hq).
  rewrite (new_calls_add_calls (attempted nut ++ cs ++ [SetAvailable; NutClose]))
    by (simpl; rewrite Hcs; simpl; now rewrite <- !app_assoc).
  destruct (attempted_counts nut) as (_ & _ & Ha).
  destruct (capability_calls_quiet cs Hq) as [_ Hc].
  now rewrite !marks_app, Ha, Hc.
Qed.

Lemma successful_tick_marks_available_witness :
  let nut := {| start := Normal tt; SetUsername := Normal tt;
                SetPassword := Normal tt; GetUPSVars := Normal body_with_load |} in
  marks (new_calls device_load_stored (snd (getDeviceData nut device_load_stored))) =
    [SetAvailable].
Proof.
  cbv zeta.
  apply (successful_tick_marks_available
           {| start := Normal tt; SetUsername := Normal tt;
              SetPassword := Normal tt; GetUPSVars := Normal body_with_load |}
           device_load_stored body_with_load eq_refl eq_refl).
  - discriminate.
  - intros known [= <-] c Hc. apply list_elem_of_In in Hc.
    apply list_elem_of_In. simpl in *. tauto.
Defined.

(** * Properties of the poll timer *)

Section PollingProperties.

Context {setting : Type} (strict_equal : setting -> setting -> bool).

Lemma onInit_polls (v : setting) (i : Instance) :
  timers i = [] -> polls (onInit v i) v.
Proof. intros H. exists (next_handle i). simpl. now rewrite H. Qed.

Lemma onSettings_polls (old new : setting) (i : Instance) (v : setting) :
  polls i v ->
  polls (onSettings strict_equal old new i)
        (if strict_equal old new then v else new).
Proof.
  intros (h & Hi & Ht). unfold onSettings.
  destruct (strict_equal old new); simpl; [now exists h |].
  exists (next_handle i). rewrite Hi. simpl. rewrite Ht. simpl.
  now rewrite Nat.eqb_refl.
Qed.

Lemma after_settings_polls (events : list (setting * setting)) (i : Instance)
    (v : setting) :
  polls i v ->
  polls (after_settings strict_equal events i)
        (interval_in_force strict_equal v events).
Proof.
  unfold after_settings, interval_in_force. revert i v.
  induction events as [|[old new] events IH]; intros i v H; simpl; [exact H |].
  apply IH. now apply onSettings_polls.
Qed.

Lemma after_settings_host (events : list (setting * setting)) (i : Instance) :
  host (after_settings strict_equal events i) = host i
  /\ device_set (after_settings strict_equal events i) = device_set i.
Proof.
  unfold after_settings. revert i.
  induction events as [|[old new] events IH]; intros i; simpl; [now split |].
  destruct (IH (onSettings strict_equal old new i)) as [-> ->].
  unfold onSettings. simpl.
  destruct (strict_equal old new); simpl; [now split |].
  destruct (interval i); now split.
Qed.

(** After [onInit] on an instance without a running timer, and any
    number of settings changes, exactly one timer runs: the one whose
    handle [this.interval] holds. Its period comes from the new value
    of the last change whose old and new [interval] differ, or from the
    initial setting when there is none. Settings changes make no call
    on the host. *)
Theorem one_timer_after_settings (initial : setting)
    (events : list (setting * setting)) (i : Instance) :
  timers i = [] ->
  let final := after_settings strict_equal events (onInit initial i) in
  (exists handle,
     interval final = Some handle
     /\ timers final =
        [(handle, interval_in_force strict_equal initial events)])
  /\ host final = record_call (SetUnavailable "Initializing...") (host i).
Proof.
  intros H. cbv zeta. split.
  - apply after_settings_polls. now apply onInit_polls.
  - now destruct (after_settings_host events (onInit initial i)) as [-> _].
Qed.

(** Deleting a device that was initialised stops its timer, whatever
    settings changes came before: no timer is left running and the call
    does not throw. *)
Theorem onDeleted_stops_the_timer (initial : setting)
    (events : list (setting * setting)) (i : Instance) :
  timers i = [] ->
  let final := after_settings strict_equal events (onInit initial i) in
  fst (onDeleted final) = Normal tt
  /\ timers (snd (onDeleted final)) = [].
Proof.
  intros H. cbv zeta.
  destruct (after_settings_polls events (onInit initial i) initial
              (onInit_polls initial i H)) as (h & Hi & Ht).
  destruct (after_settings_host events (onInit initial i)) as [_ Hd].
  unfold onDeleted. rewrite Hd. simpl. rewrite Hi. simpl. rewrite Ht. simpl.
  now rewrite Nat.eqb_refl.
Qed.

End PollingProperties.

Lemma one_timer_after_settings_witness :
  let i := {| host := device_battery_stored; device_set := false;
              interval := None; timers := []; next_handle := 0 |} in
  timers (after_settings Z.eqb [(60, 60); (60, 30)]%Z (onInit 60%Z i)) =
    [(1%nat, 30%Z)].
Proof.
  cbv zeta.
  destruct (one_timer_after_settings Z.eqb 60%Z [(60, 60); (60, 30)]%Z
              {| host := device_battery_stored; device_set := false;
                 interval := None; timers := []; next_handle := 0 |} eq_refl)
    as [(h & Hi & Ht) _].
  injection Hi as <-. exact Ht.
Defined.

Lemma onDeleted_stops_the_timer_witness :
  let i := {| host := device_battery_stored; device_set := false;
              interval := None; timers := []; next_handle := 0 |} in
  timers (snd (onDeleted (after_settings Z.eqb [(60, 30)]%Z (onInit 60%Z i)))) = [].
Proof.
  cbv zeta.
  exact (proj2 (onDeleted_stops_the_timer Z.eqb 60%Z [(60, 30)]%Z
                  {| host := device_battery_stored; device_set := false;
                     interval := None; timers := []; next_handle := 0 |}
                  eq_refl)).
Defined.
